(** * Conway's Game of Life (Game-of-Life/script/main.py)

    A shallow embedding of the simulation core of [main.py]:
    [create_next_grid], [grid_changing], [print_grid] and the generation
    loop of [run_game].

    Python grids are lists of row objects (a numpy array behaves the same
    way for the indexing the script performs: [a[row]] is a view of the
    array's row, and writing through it writes the array).  Rows live in a
    store; a grid is the list of the locations of its rows, so that two
    grids may or may not share rows, exactly as in Python. *)

From stdpp Require Import base numbers option list gmap strings pretty.

Local Open Scope Z_scope.

(** ** Matrices: the values held by a grid *)

Module Matrix.

Abbreviation matrix := (list (list Z)).

(** [a[i][j]] for in-range natural indices. *)
Definition get (a : matrix) (i j : nat) : option Z :=
  a !! i ≫= (.!! j).

(** A [rows] x [cols] rectangular matrix. *)
Definition shape (rows cols : nat) (a : matrix) : Prop :=
  length a = rows ∧ Forall (λ row, length row = cols) a.

(** Every cell is 0 (dead) or 1 (alive). *)
Definition binary (a : matrix) : Prop :=
  Forall (Forall (λ x, x = 0 ∨ x = 1)) a.

Definition zeros (rows cols : nat) : matrix :=
  replicate rows (replicate cols 0).

End Matrix.
Export Matrix.

(** ** [scipy.ndimage.convolve(input, weights, mode='constant', cval)]

    For a two-dimensional [weights] of odd sizes, the result at [(i, j)] is
    the sum over the kernel indices [(p, q)] of
    [weights[p][q] * input[i + cp - p][j + cq - q]] where [(cp, cq)] is the
    centre of the kernel and positions outside of [input] read as [cval].
    The result has the element type of [input]; on grids of 0/1 cells no
    count exceeds 8, so integers are modelled without a bound. *)

Module Ndimage.

Definition padded (cval : Z) (a : matrix) (i j : Z) : Z :=
  if bool_decide (0 ≤ i ∧ 0 ≤ j)
  then default cval (get a (Z.to_nat i) (Z.to_nat j))
  else cval.

Definition sumZ (l : list Z) : Z := foldr Z.add 0 l.

Definition convolve_at (w : matrix) (cval : Z) (a : matrix) (i j : nat) : Z :=
  let cp := Z.of_nat (length w / 2)%nat in
  sumZ (flat_map (λ '(p, wrow),
          let cq := Z.of_nat (length wrow / 2)%nat in
          imap (λ q wpq,
            wpq * padded cval a (Z.of_nat i + cp - Z.of_nat p)
                                (Z.of_nat j + cq - Z.of_nat q)) wrow)
        (imap pair w)).

Definition convolve (a w : matrix) (cval : Z) : matrix :=
  imap (λ i row, imap (λ j _, convolve_at w cval a i j) row) a.

End Ndimage.

(** Line 11: the kernel that counts the neighbours of a cell. *)
Definition k : matrix := [[1; 1; 1]; [1; 0; 1]; [1; 1; 1]].

(** The array [live_neighbors] of [create_next_grid] (line 119). *)
Definition live_neighbors (grid : matrix) : matrix :=
  Ndimage.convolve grid k 0.

(** ** The Moore neighbourhood, as the specification words it *)

Module Moore.

Definition offsets : list (Z * Z) :=
  [(-1, -1); (-1, 0); (-1, 1); (0, -1); (0, 1); (1, -1); (1, 0); (1, 1)].

Definition in_bounds (rows cols : nat) (p : Z * Z) : bool :=
  bool_decide (0 ≤ p.1 < Z.of_nat rows ∧ 0 ≤ p.2 < Z.of_nat cols).

(** The positions adjacent to [(r, c)] that lie inside the grid. *)
Definition neighbors (rows cols r c : nat) : list (Z * Z) :=
  filter (λ p, in_bounds rows cols p = true)
         (map (λ d, (Z.of_nat r + d.1, Z.of_nat c + d.2)) offsets).

Definition alive_at (g : matrix) (p : Z * Z) : bool :=
  bool_decide (get g (Z.to_nat p.1) (Z.to_nat p.2) = Some 1).

(** Number of live cells among the in-bounds neighbours of [(r, c)]. *)
Definition live_count (rows cols : nat) (g : matrix) (r c : nat) : Z :=
  Z.of_nat (length (filter (λ p, alive_at g p = true) (neighbors rows cols r c))).

Definition corner (rows cols r c : nat) : Prop :=
  (r = 0 ∨ S r = rows)%nat ∧ (c = 0 ∨ S c = cols)%nat.

Definition edge (rows cols r c : nat) : Prop :=
  (r = 0 ∨ S r = rows)%nat ∨ (c = 0 ∨ S c = cols)%nat.

End Moore.

(** ** The store: row objects, grids as lists of row locations, the console *)

Module Store.

Inductive event :=
  | ClearConsole            (* clear_console() *)
  | Output (s : string)     (* print(s, end=" ") *)
  | Sleep.                  (* time.sleep(1/5.0) *)

Record world := World {
  heap : gmap positive (list Z);
  console : list event
}.

(** A grid object: the locations of its rows. *)
Abbreviation gridref := (list positive).

(** Computations that read and write the world and may raise. *)
Definition M (A : Type) : Type := world → option (A * world).

#[global] Instance M_ret : MRet M := λ A a w, Some (a, w).
#[global] Instance M_bind : MBind M := λ A B f m w,
  match m w with
  | Some (a, w') => f a w'
  | None => None
  end.

Definition lift {A} (o : option A) : M A := λ w,
  match o with Some a => Some (a, w) | None => None end.

(** [grid[row][col]] *)
Definition load (g : gridref) (row col : nat) : M Z := λ w,
  match g !! row with
  | Some l =>
      match heap w !! l with
      | Some r =>
          match r !! col with
          | Some x => Some (x, w)
          | None => None
          end
      | None => None
      end
  | None => None
  end.

(** [grid[row][col] = v] *)
Definition store (g : gridref) (row col : nat) (v : Z) : M unit := λ w,
  match g !! row with
  | Some l =>
      match heap w !! l with
      | Some r =>
          if decide (col < length r)%nat
          then Some (tt, World (<[l := <[col := v]> r]> (heap w)) (console w))
          else None
      | None => None
      end
  | None => None
  end.

(** The values a grid holds, row by row. *)
Definition contents (h : gmap positive (list Z)) (g : gridref) : option matrix :=
  mapM (λ l, h !! l) g.

(** [numpy.asarray(grid)] as [ndimage.convolve] needs it: a fresh
    two-dimensional array, so at least one row and rows of one length. *)
Definition asarray (g : gridref) : M matrix := λ w,
  match contents (heap w) g with
  | Some (r0 :: rs) =>
      if bool_decide (Forall (λ r, length r = length r0) rs)
      then Some (r0 :: rs, w)
      else None
  | _ => None
  end.

Definition emit (e : event) : M unit := λ w,
  Some (tt, World (heap w) (console w ++ [e])).

(** [for x in l: body(x)] *)
Fixpoint for_each {A} (l : list A) (body : A → M unit) : M unit :=
  match l with
  | [] => mret tt
  | x :: l' => body x ≫= λ _, for_each l' body
  end.

(** A [for] loop whose body may [return] a value out of the function. *)
Fixpoint for_return {A R} (l : list A) (body : A → M (option R)) : M (option R) :=
  match l with
  | [] => mret None
  | x :: l' =>
      body x ≫= λ r,
      match r with
      | Some v => mret (Some v)
      | None => for_return l' body
      end
  end.

(** A [for] loop that updates a local variable. *)
Fixpoint for_fold {A S} (l : list A) (body : A → S → M S) (s : S) : M S :=
  match l with
  | [] => mret s
  | x :: l' => body x s ≫= for_fold l' body
  end.

(** [range(n)] and [range(a, b)] *)
Definition range (n : nat) : list nat := seq 0 n.
Definition range2 (a b : nat) : list nat := seq a (b - a).

End Store.
Export Store.

(** ** The functions of main.py *)

(** Lines 131-140: what the two loops of [create_next_grid] do for the cell
    at [(row, col)], given the array [live_neighbors].  The array is local
    and never written, so its cell is read once; [grid[row][col]] is read
    where Python evaluates it. *)
Definition update_cell (live_neighbors : matrix) (grid next_grid : gridref)
    (row col : nat) : M unit :=
  lift (get live_neighbors row col) ≫= λ n,
  if (n <? 2) || (3 <? n) then
    store next_grid row col 0
  else
    (if n =? 3 then load grid row col ≫= λ c, mret (c =? 0) else mret false)
    ≫= λ birth,
    if birth : bool then
      store next_grid row col 1
    else
      load grid row col ≫= λ c, store next_grid row col c.

(** Lines 103-140. *)
Definition create_next_grid (rows cols : nat) (grid next_grid : gridref) : M unit :=
  asarray grid ≫= λ a,
  let live_neighbors := live_neighbors a in
  for_each (range rows) (λ row,
    for_each (range cols) (λ col,
      update_cell live_neighbors grid next_grid row col)).

(** Lines 157-159: the test of [grid_changing] on the cell at [(row, col)];
    [Some True] stands for [return True]. *)
Definition compare_cell (grid next_grid : gridref) (row col : nat)
    : M (option bool) :=
  load grid row col ≫= λ a,
  load next_grid row col ≫= λ b,
  if negb (a =? b) then mret (Some true) else mret None.

(** Lines 143-160. *)
Definition grid_changing (rows cols : nat) (grid next_grid : gridref) : M bool :=
  for_return (range rows) (λ row,
    for_return (range cols) (λ col, compare_cell grid next_grid row col))
  ≫= λ r, mret (default false r).

(** The two characters that end a line of the output, line feed and
    carriage return. *)
Definition newline : string :=
  String (Ascii.ascii_of_nat 10) (String (Ascii.ascii_of_nat 13) EmptyString).

(** Lines 94-97: the two characters [print_grid] appends for one cell. *)
Definition append_cell (grid : gridref) (row col : nat) (output_str : string)
    : M string :=
  load grid row col ≫= λ c,
  if c =? 0 then mret (String.app output_str ". ")
  else mret (String.app output_str "@ ").

(** Lines 75-100. *)
Definition print_grid (rows cols : nat) (grid : gridref) (generation : nat)
    : M unit :=
  emit ClearConsole ≫= λ _,
  let output_str :=
    String.app "Generation "
      (String.app (pretty generation)
         (String.app " - To exit the program press <Ctrl-C>" newline)) in
  for_fold (range rows) (λ row output_str,
      for_fold (range cols) (λ col output_str,
          append_cell grid row col output_str)
        output_str ≫= λ output_str,
      mret (String.app output_str newline))
    output_str
  ≫= λ output_str, emit (Output output_str).

(** Line 201. *)
Definition generations : nat := 5000.

(** Lines 233-239: the [for gen in ...] loop over the remaining values
    [gens] of the range; [gen] is the value the variable holds so far.
    The result is the triple [(gen, current_generation, next_generation)]
    at loop exit. *)
Fixpoint generation_loop (rows cols : nat) (gens : list nat) (gen : nat)
    (current_generation next_generation : gridref) : M (nat * gridref * gridref) :=
  match gens with
  | [] => mret (gen, current_generation, next_generation)
  | g :: gens' =>
      grid_changing rows cols current_generation next_generation ≫= λ changing,
      if negb changing then
        mret (g, current_generation, next_generation)
      else
        print_grid rows cols current_generation g ≫= λ _,
        create_next_grid rows cols current_generation next_generation ≫= λ _,
        emit Sleep ≫= λ _,
        generation_loop rows cols gens' g next_generation current_generation
  end.

(** Lines 231-241 of [run_game]: the simulation proper, started from the
    two grids built by lines 204-229 (the thresholded image and the grid
    of [create_initial_grid]). *)
Definition run_simulation (rows cols : nat)
    (current_generation next_generation : gridref) : M (nat * gridref * gridref) :=
  generation_loop rows cols (range2 1 (generations + 1)) 1
                  current_generation next_generation ≫= λ r,
  print_grid rows cols r.1.2 r.1.1 ≫= λ _,
  mret r.

(** ** What the functions compute, on the values of the grids *)

(** The positions of the live cells of a [rows] x [cols] grid, in row-major
    order. *)
Definition live_positions (rows cols : nat) (g : matrix) : list (nat * nat) :=
  filter (λ p, get g p.1 p.2 = Some 1) (list_prod (seq 0 rows) (seq 0 cols)).

(** The transition of one cell, lines 131-140: [n] live neighbours, current
    state [c]. *)
Definition next_cell (n c : Z) : Z :=
  if (n <? 2) || (3 <? n) then 0
  else if (n =? 3) && (c =? 0) then 1
  else c.

(** The successor of a grid under the Life step. *)
Definition next_matrix (g : matrix) : matrix :=
  zip_with (zip_with next_cell) (live_neighbors g) g.

(** The text [print_grid] builds for a grid holding [g]. *)
Definition render_row (row : list Z) (s : string) : string :=
  foldl (λ s c, if c =? 0 then String.app s ". " else String.app s "@ ") s row.

Definition render (g : matrix) (generation : nat) : string :=
  foldl (λ s row, String.app (render_row row s) newline)
    (String.app "Generation "
       (String.app (pretty generation)
          (String.app " - To exit the program press <Ctrl-C>" newline)))
    g.

(** The grid after [n] steps of Life from [g]. *)
Definition generation_at (g : matrix) (n : nat) : matrix :=
  Nat.iter n next_matrix g.

(** The number of iterations of the generation loop that advance the grid,
    for the remaining range [gens] and the values [cur] and [nxt] of the
    two buffers: the loop leaves at the first iteration that finds the two
    buffers equal. *)
Fixpoint advances (gens : list nat) (cur nxt : matrix) : nat :=
  match gens with
  | [] => 0
  | _ :: gens' =>
      if bool_decide (cur = nxt) then 0
      else S (advances gens' (next_matrix cur) cur)
  end.

(** What [k] advancing iterations put on the console, from the grid [g]
    shown as generation [gen]. *)
Fixpoint frames (g : matrix) (gen : nat) (k : nat) : list event :=
  match k with
  | O => []
  | S k' =>
      ClearConsole :: Output (render g gen) :: Sleep
        :: frames (next_matrix g) (S gen) k'
  end.

(** The value of [gen] when a loop over [range(a, a + n)] is left after [k]
    advancing iterations; [gen0] is the value before the loop. *)
Definition exit_gen (a n gen0 k : nat) : nat :=
  if (k <? n)%nat then (a + k)%nat
  else match n with O => gen0 | S n' => (a + n')%nat end.

(** The buffer that holds the current grid after [k] swaps. *)
Definition after_swaps (k : nat) (cur nxt : gridref) : gridref * gridref :=
  if Nat.even k then (cur, nxt) else (nxt, cur).

(** The value of the next buffer after [k] advancing iterations: the
    generation before the current one, or the initial content [nm]. *)
Definition behind (cm nm : matrix) (k : nat) : matrix :=
  match k with O => nm | S k' => generation_at cm k' end.

(** The store after the rows [ms] have been written at the locations [ls]. *)
Definition write_rows (ls : list positive) (ms : matrix)
    (h : gmap positive (list Z)) : gmap positive (list Z) :=
  foldl (λ h lr, <[lr.1 := lr.2]> h) h (zip ls ms).

(** Two grids whose rows are pairwise distinct objects. *)
Definition separate (g1 g2 : gridref) : Prop := NoDup (g1 ++ g2).

(** [w'] differs from [w] at most in the row objects [ls]. *)
Definition unchanged_outside (ls : list positive) (w w' : world) : Prop :=
  console w' = console w ∧ ∀ l, l ∉ ls → heap w' !! l = heap w !! l.

(** The two grids of the simulation as the loop expects them: [cur] holds
    [cm], [nxt] holds [nm], both are [rows] x [cols] and share no row. *)
Definition holds (rows cols : nat) (w : world) (cur nxt : gridref)
    (cm nm : matrix) : Prop :=
  contents (heap w) cur = Some cm ∧ contents (heap w) nxt = Some nm ∧
  shape rows cols cm ∧ shape rows cols nm ∧ separate cur nxt.

#[global] Instance shape_dec rows cols a : Decision (shape rows cols a).
Proof. unfold shape. apply _. Defined.

#[global] Instance binary_dec a : Decision (binary a).
Proof. unfold binary. apply _. Defined.

#[global] Instance separate_dec g1 g2 : Decision (separate g1 g2).
Proof. unfold separate. apply _. Defined.

#[global] Instance holds_dec rows cols w cur nxt cm nm :
  Decision (holds rows cols w cur nxt cm nm).
Proof. unfold holds. apply _. Defined.

(** What a run shows to its user: the last value of the counter and the
    console. *)
Definition outcome (r : option (nat * gridref * gridref * world))
    : option (nat * list event) :=
  (λ x, (x.1.1.1, console x.2)) <$> r.

(** ** Concrete grids and stores *)

(** The [rows] x [cols] grid whose live cells are the positions [live]. *)
Definition pattern (rows cols : nat) (live : list (nat * nat)) : matrix :=
  map (λ r, map (λ c, if bool_decide ((r, c) ∈ live) then 1 else 0) (seq 0 cols))
      (seq 0 rows).

Definition blinker_h : matrix := pattern 5 5 [(2, 1); (2, 2); (2, 3)]%nat.
Definition blinker_v : matrix := pattern 5 5 [(1, 2); (2, 2); (3, 2)]%nat.
Definition block : matrix := pattern 10 10 [(4, 4); (4, 5); (5, 4); (5, 5)]%nat.
Definition lone_cell : matrix := pattern 10 10 [(0, 7)]%nat.

(** [n] consecutive locations from [p] on. *)
Fixpoint locs_from (p : positive) (n : nat) : list positive :=
  match n with
  | O => []
  | S n' => p :: locs_from (Pos.succ p) n'
  end.

(** Two grids allocated one after the other, holding [cm] and [nm], and an
    empty console. *)
Definition first_grid (cm : matrix) : gridref := locs_from 1 (length cm).
Definition second_grid (cm nm : matrix) : gridref :=
  locs_from (Pos.of_succ_nat (length cm)) (length nm).
Definition world_of (cm nm : matrix) : world :=
  World (list_to_map (zip (first_grid cm) cm ++ zip (second_grid cm nm) nm)) [].

(** ** The rest of main.py: the random grid, the prompts, the image *)

Module Alloc.

(** A new row object (a list display or [[]] in Python): it lives at a
    location no row lives at. *)
Definition alloc (row : list Z) : M positive := λ w,
  let l := fresh (dom (heap w)) in
  Some (l, World (<[l := row]> (heap w)) (console w)).

(** [row += [v]] on the row object at [l]: the list grows in place. *)
Definition extend (l : positive) (v : Z) : M unit := λ w,
  match heap w !! l with
  | Some r => Some (tt, World (<[l := r ++ [v]]> (heap w)) (console w))
  | None => None
  end.

End Alloc.
Export Alloc.

(** Lines 53-72.  [draws] are the successive results of
    [random.randint(0, 7)] and [pos] is the number of draws made so far;
    the function returns the grid and the new number of draws. *)
Definition create_initial_grid (rows cols : nat) (draws : nat → Z) (pos : nat)
    : M (gridref * nat) :=
  for_fold (range rows) (λ row '(grid, pos),
      alloc [] ≫= λ grid_rows,
      for_fold (range cols) (λ col pos,
          (if draws pos =? 0 then extend grid_rows 1 else extend grid_rows 0)
          ≫= λ _, mret (S pos))
        pos ≫= λ pos,
      mret (grid ++ [grid_rows], pos))
    ([], pos).

(** The values of the grid [create_initial_grid] builds from the draws
    number [pos] on. *)
Fixpoint random_row (draws : nat → Z) (pos n : nat) : list Z :=
  match n with
  | O => []
  | S n' => (if draws pos =? 0 then 1 else 0) :: random_row draws (S pos) n'
  end.

Fixpoint random_matrix (draws : nat → Z) (pos rows cols : nat) : matrix :=
  match rows with
  | O => []
  | S rows' =>
      random_row draws pos cols
        :: random_matrix draws (pos + cols) rows' cols
  end.

(** Arithmetic on numpy's [uint8]: results wrap modulo 256. *)
Module Uint8.

Definition wrap (x : Z) : Z := x mod 256.
Definition neg (x : Z) : Z := wrap (- x).
Definition add (x y : Z) : Z := wrap (x + y).
Definition floordiv (x y : Z) : Z := wrap (x / y).

End Uint8.

(** [cv2.threshold(src, thresh, maxval, cv2.THRESH_BINARY)[1]]: [maxval]
    where the pixel is above [thresh], 0 elsewhere. *)
Definition threshold_binary (src : matrix) (thresh maxval : Z) : matrix :=
  map (map (λ x, if thresh <? x then maxval else 0)) src.

(** Lines 224-227 of [run_game]: from the resized grey image to the grid
    of the first generation. *)
Definition binarize (image : matrix) : matrix :=
  let image_binary := threshold_binary image 127 255 in
  let image_array := map (map (λ x, Uint8.floordiv x 255)) image_binary in
  map (map (λ x, Uint8.add (Uint8.neg x) 1)) image_array.

(** Lines 219-228: [new_size = (rows, cols)] is handed to [cv2.resize] as
    its [dsize]; [resize] stands for that function. *)
Definition image_grid (resize : matrix → nat * nat → matrix)
    (rows cols : nat) (image : matrix) : matrix :=
  let new_size := (rows, cols) in
  binarize (resize image new_size).

(** What is known of [cv2.resize(src, dsize)]: [dsize] is (width, height),
    and the result has [height] rows of [width] pixels. *)
Definition resizes (resize : matrix → nat * nat → matrix) : Prop :=
  ∀ src width height, shape height width (resize src (width, height)).

(** A stand-in for [cv2.resize]: the pixel nearest to the top-left of each
    cell of the target. *)
Definition sample (src : matrix) (dsize : nat * nat) : matrix :=
  let height := length src in
  let width := length (default [] (head src)) in
  map (λ r, map (λ c, default 0 (get src (r * height / dsize.2)
                                       (c * width / dsize.1)))
              (seq 0 dsize.1))
      (seq 0 dsize.2).

(** ** The prompts *)

Module Prompts.

(** What reaches the terminal: the prompt of [input(prompt)], or a line
    written by [print]. *)
Inductive written :=
  | Prompt (s : string)
  | Line (s : string).

(** Lines 163-183.  [int] stands for Python's [int] on strings ([None] is
    [ValueError]); [stdin] holds the lines still to be read and reading
    past its end is the [EOFError] that leaves the function.  The result is
    the value, the lines left and what was written. *)
Fixpoint get_integer_value (int : string → option Z) (prompt : string)
    (low high : Z) (stdin : list string) (stdout : list written)
    : option (Z * list string * list written) :=
  match stdin with
  | [] => None
  | line :: stdin =>
      let stdout := stdout ++ [Prompt prompt] in
      match int line with
      | None =>
          get_integer_value int prompt low high stdin
            (stdout ++ [Line "Input was not a valid integer value."])
      | Some value =>
          if (value <? low) || (high <? value) then
            get_integer_value int prompt low high stdin
              (stdout ++
               [Line (String.app "Input was not inside the bounds (value <= "
                        (String.app (pretty low)
                           (String.app " or value >= "
                              (String.app (pretty high) ")."))))])
          else Some (value, stdin, stdout)
      end
  end.

(** A line that [get_integer_value] does not take: not an integer, or an
    integer outside of [low .. high]. *)
Definition refused (int : string → option Z) (low high : Z) (line : string)
    : Prop :=
  match int line with
  | None => True
  | Some value => value < low ∨ high < value
  end.

End Prompts.


(** ** Properties *)

Example live_neighbors_example :
  live_neighbors [[1; 1; 0]; [0; 1; 0]; [0; 0; 1]]
  = [[2; 2; 2]; [3; 3; 3]; [1; 2; 1]].
Proof. reflexivity. Qed.

Section monad_facts.
Context {A B : Type}.

Lemma bind_some (m : M A) (f : A → M B) w a w' :
  m w = Some (a, w') → (m ≫= f) w = f a w'.
Proof. intros H. unfold mbind, M_bind. by rewrite H. Qed.

Lemma bind_inv (m : M A) (f : A → M B) w b w2 :
  (m ≫= f) w = Some (b, w2) →
  ∃ a w1, m w = Some (a, w1) ∧ f a w1 = Some (b, w2).
Proof.
  unfold mbind, M_bind. destruct (m w) as [[a w1]|] eqn:E; [|done].
  intros H. by exists a, w1.
Qed.

Lemma ret_eq (a : A) w : (mret a : M A) w = Some (a, w).
Proof. done. Qed.
End monad_facts.

Section shapes.
Implicit Types (a g : matrix).

Lemma shape_row rows cols a i row :
  shape rows cols a → a !! i = Some row → length row = cols.
Proof.
  intros [_ H] Hi. rewrite Forall_lookup in H. by eapply H.
Qed.

Lemma shape_get rows cols a i j :
  shape rows cols a → (i < rows)%nat → (j < cols)%nat → is_Some (get a i j).
Proof.
  intros [Hl H] Hi Hj. unfold get.
  destruct (lookup_lt_is_Some_2 a i) as [row Hrow]; [lia|].
  rewrite Hrow. simpl. apply lookup_lt_is_Some_2.
  rewrite Forall_lookup in H. rewrite (H _ _ Hrow). done.
Qed.

Lemma shape_eq_get rows cols a b :
  shape rows cols a → shape rows cols b →
  (∀ i j, (i < rows)%nat → (j < cols)%nat → get a i j = get b i j) → a = b.
Proof.
  intros [Ha Fa] [Hb Fb] H. apply (list_eq_same_length _ _ rows); [done..|].
  intros i x y Hi Hx Hy.
  rewrite Forall_lookup in Fa. rewrite Forall_lookup in Fb.
  apply (list_eq_same_length _ _ cols); [by eapply Fb|by eapply Fa|].
  intros j u v Hj Hu Hv.
  specialize (H i j Hi Hj). unfold get in H. rewrite Hx, Hy in H. simpl in H.
  congruence.
Qed.

Lemma binary_get a i j x :
  binary a → get a i j = Some x → x = 0 ∨ x = 1.
Proof.
  unfold binary, get. intros H Hg.
  destruct (a !! i) as [row|] eqn:E; [|done]. simpl in Hg.
  rewrite Forall_lookup in H. specialize (H _ _ E).
  rewrite Forall_lookup in H. by eapply H.
Qed.

Lemma shape_zeros rows cols : shape rows cols (zeros rows cols).
Proof.
  unfold shape, zeros. split; [by rewrite length_replicate|].
  apply Forall_replicate. by rewrite length_replicate.
Qed.

Lemma get_zeros rows cols i j :
  (i < rows)%nat → (j < cols)%nat → get (zeros rows cols) i j = Some 0.
Proof.
  intros Hi Hj. unfold get, zeros.
  rewrite lookup_replicate_2 by done. simpl. by rewrite lookup_replicate_2.
Qed.
End shapes.

Section neighbour_count.
Variables (rows cols : nat) (g : matrix).
Hypothesis Hshape : shape rows cols g.
Hypothesis Hbin : binary g.

Lemma get_outside i j :
  (rows ≤ i ∨ cols ≤ j)%nat → get g i j = None.
Proof.
  intros H. unfold get. destruct (g !! i) as [row|] eqn:E; [|done]. simpl.
  pose proof (shape_row _ _ _ _ _ Hshape E) as Hlen.
  destruct Hshape as [Hrows _].
  apply lookup_ge_None. apply lookup_lt_Some in E. lia.
Qed.

(** A padded read is 1 exactly on the live cells inside the grid. *)
Lemma padded_indicator i j :
  Ndimage.padded 0 g i j
  = if Moore.in_bounds rows cols (i, j) && Moore.alive_at g (i, j) then 1 else 0.
Proof.
  unfold Ndimage.padded, Moore.in_bounds, Moore.alive_at. simpl.
  destruct (bool_decide_reflect (0 ≤ i ∧ 0 ≤ j)) as [Hnn|Hneg].
  - destruct (bool_decide_reflect (0 ≤ i < Z.of_nat rows ∧ 0 ≤ j < Z.of_nat cols))
      as [Hin|Hout]; simpl.
    + destruct (shape_get rows cols g (Z.to_nat i) (Z.to_nat j) Hshape) as [x Hx];
        [lia..|].
      rewrite Hx. simpl.
      destruct (binary_get _ _ _ _ Hbin Hx) as [->| ->].
      * by rewrite bool_decide_eq_false_2.
      * by rewrite bool_decide_eq_true_2.
    + rewrite get_outside; [done|lia].
  - rewrite bool_decide_eq_false_2; [done|lia].
Qed.

Lemma length_filter_sum {A} (f h : A → bool) (l : list A) :
  Z.of_nat (length (filter (λ p, f p = true) (filter (λ p, h p = true) l)))
  = Ndimage.sumZ (map (λ p, if h p && f p then 1 else 0) l).
Proof.
  induction l as [|x l IH]; [done|].
  cbn [map Ndimage.sumZ foldr].
  fold (Ndimage.sumZ (map (λ p, if h p && f p then 1 else 0) l)).
  rewrite <- IH. destruct (h x) eqn:Eh.
  - rewrite (filter_cons_True (λ p, h p = true)) by done. destruct (f x) eqn:Ef; simpl.
    + rewrite (filter_cons_True (λ p, f p = true)) by done. simpl length. lia.
    + rewrite (filter_cons_False (λ p, f p = true)) by congruence. lia.
  - rewrite (filter_cons_False (λ p, h p = true)) by congruence. simpl. lia.
Qed.

Lemma convolve_at_live_count r c :
  Ndimage.convolve_at k 0 g r c = Moore.live_count rows cols g r c.
Proof.
  unfold Moore.live_count, Moore.neighbors.
  rewrite length_filter_sum.
  unfold Ndimage.convolve_at, k. simpl.
  rewrite <- !padded_indicator.
  set (R := Z.of_nat r). set (C := Z.of_nat c).
  replace (R + Z.of_nat 1 - Z.of_nat 0) with (R + 1) by lia.
  replace (R + Z.of_nat 1 - Z.of_nat 1) with (R + 0) by lia.
  replace (R + Z.of_nat 1 - Z.of_nat 2) with (R + -1) by lia.
  replace (C + Z.of_nat 1 - Z.of_nat 0) with (C + 1) by lia.
  replace (C + Z.of_nat 1 - Z.of_nat 1) with (C + 0) by lia.
  replace (C + Z.of_nat 1 - Z.of_nat 2) with (C + -1) by lia.
  lia.
Qed.

Lemma live_neighbors_get r c :
  (r < rows)%nat → (c < cols)%nat →
  get (live_neighbors g) r c = Some (Moore.live_count rows cols g r c).
Proof.
  intros Hr Hc. unfold live_neighbors, Ndimage.convolve, get.
  destruct (lookup_lt_is_Some_2 g r) as [row Hrow]; [destruct Hshape; lia|].
  rewrite list_lookup_imap, Hrow. simpl.
  destruct (lookup_lt_is_Some_2 row c) as [x Hx].
  { by rewrite (shape_row _ _ _ _ _ Hshape Hrow). }
  rewrite list_lookup_imap, Hx. simpl.
  by rewrite convolve_at_live_count.
Qed.

Lemma live_count_bounds r c :
  0 ≤ Moore.live_count rows cols g r c
    ≤ Z.of_nat (length (Moore.neighbors rows cols r c)).
Proof.
  unfold Moore.live_count. split; [lia|].
  apply inj_le, length_filter.
Qed.
End neighbour_count.

Lemma shape_live_neighbors rows cols g :
  shape rows cols g → shape rows cols (live_neighbors g).
Proof.
  intros [Hl HF]. unfold live_neighbors, Ndimage.convolve. split.
  - by rewrite length_imap.
  - apply Forall_lookup. intros i row. rewrite list_lookup_imap.
    destruct (g !! i) as [grow|] eqn:E; [|done]. simpl. intros [= <-].
    rewrite length_imap. rewrite Forall_lookup in HF. by eapply HF.
Qed.

(** The number of positions a cell draws its count from. *)
Lemma neighbors_length_le rows cols r c :
  (length (Moore.neighbors rows cols r c) ≤ 8)%nat.
Proof.
  unfold Moore.neighbors.
  etrans; [apply length_filter|]. by rewrite length_map.
Qed.

Ltac count_in_bounds :=
  repeat (rewrite filter_cons;
          first [ rewrite decide_False
                    by (rewrite bool_decide_eq_true; cbn [fst snd]; lia)
                | destruct (decide _) as [_|_] ]);
  rewrite filter_nil; cbn [length]; lia.

Lemma neighbors_corner rows cols r c :
  (r < rows)%nat → (c < cols)%nat → Moore.corner rows cols r c →
  (length (Moore.neighbors rows cols r c) ≤ 3)%nat.
Proof.
  intros Hr Hc [Hrc Hcc]. unfold Moore.neighbors, Moore.offsets, Moore.in_bounds.
  cbn [map fst snd]. destruct Hrc, Hcc; count_in_bounds.
Qed.

Lemma neighbors_edge rows cols r c :
  (r < rows)%nat → (c < cols)%nat → Moore.edge rows cols r c →
  (length (Moore.neighbors rows cols r c) ≤ 5)%nat.
Proof.
  intros Hr Hc Hedge. unfold Moore.neighbors, Moore.offsets, Moore.in_bounds.
  cbn [map fst snd]. destruct Hedge as [[?|?]|[?|?]]; count_in_bounds.
Qed.

(** *** Reading grids from the store *)

Section store_reads.
Implicit Types (w : world) (g : gridref) (m : matrix).

Lemma contents_Forall2 (h : gmap positive (list Z)) g m :
  contents h g = Some m ↔ Forall2 (λ l r, h !! l = Some r) g m.
Proof. unfold contents. apply mapM_Some. Qed.

Lemma contents_length (h : gmap positive (list Z)) g m :
  contents h g = Some m → length g = length m.
Proof. rewrite contents_Forall2. apply Forall2_length. Qed.

Lemma contents_row (h : gmap positive (list Z)) g m i row :
  contents h g = Some m → m !! i = Some row →
  ∃ l, g !! i = Some l ∧ h !! l = Some row.
Proof.
  rewrite contents_Forall2. intros HF Hi.
  destruct (Forall2_lookup_r _ _ _ _ _ HF Hi) as (l & Hl & Hh). eauto.
Qed.

Lemma load_get w g m i j x :
  contents (heap w) g = Some m → get m i j = Some x →
  load g i j w = Some (x, w).
Proof.
  intros Hc Hg. unfold get in Hg.
  destruct (m !! i) as [row|] eqn:Hrow; [|done]. simpl in Hg.
  destruct (contents_row _ _ _ _ _ Hc Hrow) as (l & Hl & Hh).
  unfold load. by rewrite Hl, Hh, Hg.
Qed.

Lemma load_row w g m i row j x :
  contents (heap w) g = Some m → m !! i = Some row → row !! j = Some x →
  load g i j w = Some (x, w).
Proof.
  intros Hc Hrow Hx. eapply load_get; [done|].
  unfold get. by rewrite Hrow.
Qed.
End store_reads.

(** *** [grid_changing] *)

Lemma bool_decide_cons_eq {A} `{EqDecision A} (x : A) (l1 l2 : list A) :
  bool_decide (x :: l1 = x :: l2) = bool_decide (l1 = l2).
Proof. apply bool_decide_ext. split; [by intros [= ->]|congruence]. Qed.

Section grid_changing_facts.
Variables (rows cols : nat) (grid next_grid : gridref) (w : world).
Variables (gm nm : matrix).
Hypothesis Hgrid : contents (heap w) grid = Some gm.
Hypothesis Hnext : contents (heap w) next_grid = Some nm.
Hypothesis Sgrid : shape rows cols gm.
Hypothesis Snext : shape rows cols nm.

Lemma compare_cell_value row col arow brow x y :
  gm !! row = Some arow → nm !! row = Some brow →
  arow !! col = Some x → brow !! col = Some y →
  compare_cell grid next_grid row col w
  = Some (if negb (x =? y) then Some true else None, w).
Proof.
  intros Ha Hb Hx Hy. unfold compare_cell.
  rewrite (bind_some _ _ _ _ _ (load_row _ _ _ _ _ _ _ Hgrid Ha Hx)).
  rewrite (bind_some _ _ _ _ _ (load_row _ _ _ _ _ _ _ Hnext Hb Hy)).
  by destruct (negb (x =? y)).
Qed.

Lemma changing_cols row arow brow :
  gm !! row = Some arow → nm !! row = Some brow →
  ∀ n c0, (c0 + n = cols)%nat →
  for_return (seq c0 n) (compare_cell grid next_grid row) w
  = Some (if bool_decide (drop c0 arow = drop c0 brow) then None else Some true, w).
Proof.
  intros Ha Hb.
  pose proof (shape_row _ _ _ _ _ Sgrid Ha) as La.
  pose proof (shape_row _ _ _ _ _ Snext Hb) as Lb.
  induction n as [|n IH]; intros c0 Hc.
  - rewrite !drop_ge by lia. done.
  - destruct (lookup_lt_is_Some_2 arow c0) as [x Hx]; [lia|].
    destruct (lookup_lt_is_Some_2 brow c0) as [y Hy]; [lia|].
    rewrite (drop_S _ _ _ Hx), (drop_S _ _ _ Hy).
    cbn [seq for_return].
    rewrite (bind_some _ _ _ _ _ (compare_cell_value _ _ _ _ _ _ Ha Hb Hx Hy)).
    destruct (Z.eqb_spec x y) as [->|Hne]; simpl.
    + rewrite IH by lia. by rewrite bool_decide_cons_eq.
    + rewrite ret_eq. rewrite bool_decide_eq_false_2; [done|congruence].
Qed.

Lemma changing_rows :
  ∀ n r0, (r0 + n = rows)%nat →
  for_return (seq r0 n)
    (λ row, for_return (range cols) (compare_cell grid next_grid row)) w
  = Some (if bool_decide (drop r0 gm = drop r0 nm) then None else Some true, w).
Proof.
  destruct Sgrid as [Lg _]. destruct Snext as [Ln _].
  induction n as [|n IH]; intros r0 Hr.
  - rewrite !drop_ge by lia. done.
  - destruct (lookup_lt_is_Some_2 gm r0) as [arow Ha]; [lia|].
    destruct (lookup_lt_is_Some_2 nm r0) as [brow Hb]; [lia|].
    rewrite (drop_S _ _ _ Ha), (drop_S _ _ _ Hb).
    cbn [seq for_return].
    rewrite (bind_some _ _ _ _ _
               (changing_cols r0 arow brow Ha Hb cols 0%nat eq_refl)).
    rewrite !drop_0.
    destruct (decide (arow = brow)) as [->|Hne].
    + rewrite bool_decide_eq_true_2 by done. rewrite IH by lia.
      by rewrite bool_decide_cons_eq.
    + rewrite bool_decide_eq_false_2 by done. rewrite ret_eq.
      rewrite bool_decide_eq_false_2; [done|congruence].
Qed.

(** The function returns, leaves the world as it was, and answers
    whether the two grids differ. *)
Lemma grid_changing_value :
  grid_changing rows cols grid next_grid w
  = Some (negb (bool_decide (gm = nm)), w).
Proof.
  unfold grid_changing.
  rewrite (bind_some _ _ _ _ _ (changing_rows rows 0%nat eq_refl)).
  rewrite !drop_0. rewrite ret_eq. by destruct (bool_decide (gm = nm)).
Qed.
End grid_changing_facts.

(** *** Writing rows into the store *)

Section store_writes.
Implicit Types (h : gmap positive (list Z)) (ls : list positive) (ms : matrix).

Lemma write_rows_notin ls ms h l :
  l ∉ ls → write_rows ls ms h !! l = h !! l.
Proof.
  revert ms h. induction ls as [|l' ls IH]; intros [|m ms] h Hl; try done.
  apply not_elem_of_cons in Hl as [Hne Hl]. cbn.
  fold (write_rows ls ms (<[l':=m]> h)).
  rewrite IH by done. by rewrite lookup_insert_ne.
Qed.

Lemma write_rows_contents ls ms h :
  NoDup ls → length ls = length ms →
  contents (write_rows ls ms h) ls = Some ms.
Proof.
  rewrite contents_Forall2.
  revert ms h. induction ls as [|l ls IH]; intros [|m ms] h Hnd Hlen;
    try discriminate; [constructor|].
  apply NoDup_cons in Hnd as [Hl Hnd]. cbn in Hlen. cbn.
  fold (write_rows ls ms (<[l:=m]> h)). constructor.
  - rewrite write_rows_notin by done. by rewrite lookup_insert_eq.
  - apply IH; [done|lia].
Qed.

Lemma contents_agree h h' g :
  (∀ l, l ∈ g → h' !! l = h !! l) → contents h' g = contents h g.
Proof.
  intros H. unfold contents. induction g as [|l g IH]; [done|].
  cbn. rewrite H by left. rewrite IH; [done|].
  intros l' Hl'. apply H. by right.
Qed.

Lemma contents_insert_notin h g l r :
  l ∉ g → contents (<[l:=r]> h) g = contents h g.
Proof.
  intros Hl. apply contents_agree. intros l' Hl'.
  apply lookup_insert_ne. by intros ->.
Qed.

Lemma contents_write_rows_disjoint h g ls ms :
  (∀ l, l ∈ g → l ∉ ls) → contents (write_rows ls ms h) g = contents h g.
Proof.
  intros H. apply contents_agree. intros l Hl.
  apply write_rows_notin. by apply H.
Qed.
End store_writes.

Lemma world_eta w : World (heap w) (console w) = w.
Proof. by destruct w. Qed.

Lemma zip_with_take_drop_insert {A} (new old : list A) c0 x :
  new !! c0 = Some x → (c0 < length old)%nat →
  <[c0:=x]> (take c0 new ++ drop c0 old) = take (S c0) new ++ drop (S c0) old.
Proof.
  intros Hx Hlen.
  pose proof (lookup_lt_Some _ _ _ Hx) as Hc.
  destruct (lookup_lt_is_Some_2 old c0 Hlen) as [y Hy].
  rewrite insert_app_r_alt by (rewrite length_take; lia).
  rewrite length_take, Nat.min_l by lia.
  rewrite Nat.sub_diag, (drop_S _ _ _ Hy). cbn.
  rewrite (take_S_r _ _ _ Hx). by rewrite <- app_assoc.
Qed.

(** *** [create_next_grid] *)

Section create_next_grid_facts.
Variables (rows cols : nat) (grid next_grid : gridref) (gm : matrix).
Hypothesis Sgrid : shape rows cols gm.
Hypothesis Hsep : ∀ l, l ∈ grid → l ∉ next_grid.
Hypothesis Hnodup : NoDup next_grid.

Lemma store_value w row col l cur v :
  next_grid !! row = Some l → heap w !! l = Some cur → (col < length cur)%nat →
  store next_grid row col v w
  = Some (tt, World (<[l := <[col := v]> cur]> (heap w)) (console w)).
Proof.
  intros Hl Hcur Hlen. unfold store. rewrite Hl, Hcur.
  by rewrite decide_True.
Qed.

Lemma cell_value w row col l cur n c :
  contents (heap w) grid = Some gm →
  get (live_neighbors gm) row col = Some n → get gm row col = Some c →
  next_grid !! row = Some l → heap w !! l = Some cur → (col < length cur)%nat →
  update_cell (live_neighbors gm) grid next_grid row col w
  = Some (tt, World (<[l := <[col := next_cell n c]> cur]> (heap w)) (console w)).
Proof.
  intros Hg Hn Hc Hl Hcur Hlen. unfold update_cell, next_cell.
  rewrite Hn. unfold lift at 1. unfold mbind at 1, M_bind at 1.
  destruct ((n <? 2) || (3 <? n)); [by apply store_value|].
  destruct (n =? 3).
  - unfold mbind at 1, M_bind at 1.
    rewrite (bind_some _ _ _ _ _ (load_get _ _ _ _ _ _ Hg Hc)), ret_eq.
    destruct (c =? 0); simpl; [by apply store_value|].
    rewrite (bind_some _ _ _ _ _ (load_get _ _ _ _ _ _ Hg Hc)).
    by apply store_value.
  - unfold mbind at 1, M_bind at 1. rewrite ret_eq. simpl.
    rewrite (bind_some _ _ _ _ _ (load_get _ _ _ _ _ _ Hg Hc)).
    by apply store_value.
Qed.

Lemma cells_of_row row l lnrow grow old :
  next_grid !! row = Some l → l ∉ grid →
  live_neighbors gm !! row = Some lnrow → gm !! row = Some grow →
  length old = cols →
  let new := zip_with next_cell lnrow grow in
  ∀ n c0 w, (c0 + n = cols)%nat →
    contents (heap w) grid = Some gm →
    heap w !! l = Some (take c0 new ++ drop c0 old) →
    for_each (seq c0 n) (update_cell (live_neighbors gm) grid next_grid row) w
    = Some (tt, World (<[l := new]> (heap w)) (console w)).
Proof.
  intros Hl Hlg Hln Hgrow Hold new.
  pose proof (shape_row _ _ _ _ _ Sgrid Hgrow) as Lg.
  pose proof (shape_row _ _ _ _ _ (shape_live_neighbors _ _ _ Sgrid) Hln) as Ll.
  assert (length new = cols) as Lnew.
  { unfold new. rewrite length_zip_with. lia. }
  induction n as [|n IH]; intros c0 w Hc Hg Hcur.
  - cbn. rewrite ret_eq. rewrite take_ge, drop_ge, app_nil_r in Hcur by lia.
    rewrite insert_id by done. by rewrite world_eta.
  - destruct (lookup_lt_is_Some_2 lnrow c0) as [nn Hnn]; [lia|].
    destruct (lookup_lt_is_Some_2 grow c0) as [c Hcc]; [lia|].
    assert (new !! c0 = Some (next_cell nn c)) as Hnew.
    { unfold new. rewrite lookup_zip_with, Hnn. simpl. by rewrite Hcc. }
    cbn [seq for_each].
    erewrite bind_some; last first.
    { eapply cell_value; [done| | |done|exact Hcur|].
      - unfold get. rewrite Hln. exact Hnn.
      - unfold get. rewrite Hgrow. exact Hcc.
      - rewrite length_app, length_take, length_drop. lia. }
    rewrite zip_with_take_drop_insert by (done || lia).
    rewrite IH; cbn [heap console].
    + by rewrite insert_insert_eq.
    + lia.
    + by rewrite contents_insert_notin.
    + by rewrite lookup_insert_eq.
Qed.

Lemma rows_of_grid :
  ∀ n r0 w, (r0 + n = rows)%nat →
    contents (heap w) grid = Some gm →
    (∀ i l, (r0 ≤ i)%nat → next_grid !! i = Some l →
            ∃ old, heap w !! l = Some old ∧ length old = cols) →
    length next_grid = rows →
    for_each (seq r0 n)
      (λ row, for_each (range cols)
                (update_cell (live_neighbors gm) grid next_grid row)) w
    = Some (tt, World (write_rows (drop r0 next_grid)
                         (drop r0 (next_matrix gm)) (heap w))
                      (console w)).
Proof.
  pose proof (shape_live_neighbors _ _ _ Sgrid) as Sln.
  induction n as [|n IH]; intros r0 w Hr Hg Hold Hlen.
  - cbn. rewrite ret_eq. rewrite (drop_ge next_grid) by lia. cbn.
    by rewrite world_eta.
  - destruct (lookup_lt_is_Some_2 next_grid r0) as [l Hl]; [lia|].
    destruct (lookup_lt_is_Some_2 gm r0) as [grow Hgrow]; [destruct Sgrid; lia|].
    destruct (lookup_lt_is_Some_2 (live_neighbors gm) r0) as [lnrow Hln];
      [destruct Sln; lia|].
    destruct (Hold r0 l (le_n _) Hl) as (old & Hcur & Lold).
    assert (l ∉ grid) as Hlg.
    { intros Hin. apply (Hsep _ Hin). by eapply list_elem_of_lookup_2. }
    cbn [seq for_each].
    erewrite bind_some; last first.
    { eapply (cells_of_row r0 l lnrow grow old Hl Hlg Hln Hgrow Lold cols 0%nat);
        [done|done|]. by rewrite take_0, drop_0. }
    rewrite IH; cbn [heap console].
    + rewrite (drop_S _ _ _ Hl).
      assert (next_matrix gm !! r0 = Some (zip_with next_cell lnrow grow)) as Hnm.
      { unfold next_matrix. rewrite lookup_zip_with, Hln. simpl. by rewrite Hgrow. }
      by rewrite (drop_S _ _ _ Hnm).
    + lia.
    + by rewrite contents_insert_notin.
    + intros i l' Hi Hl'. rewrite lookup_insert_ne.
      * apply (Hold i l'); [lia|done].
      * intros ->.
        pose proof (proj1 (NoDup_alt _) Hnodup _ _ _ Hl Hl'). lia.
    + done.
Qed.
End create_next_grid_facts.

Lemma shape_next_matrix rows cols g :
  shape rows cols g → shape rows cols (next_matrix g).
Proof.
  intros Sg. pose proof (shape_live_neighbors _ _ _ Sg) as Sl.
  destruct Sg as [Lg Fg]. destruct Sl as [Ll Fl].
  unfold next_matrix. split.
  - rewrite length_zip_with. lia.
  - apply Forall_lookup. intros i row. rewrite lookup_zip_with.
    destruct (live_neighbors g !! i) as [lnrow|] eqn:E1; [|done]. simpl.
    destruct (g !! i) as [grow|] eqn:E2; [|done]. simpl. intros [= <-].
    rewrite Forall_lookup in Fg. rewrite Forall_lookup in Fl.
    rewrite length_zip_with, (Fg _ _ E2), (Fl _ _ E1). lia.
Qed.

Lemma get_next_matrix g r c n x :
  get (live_neighbors g) r c = Some n → get g r c = Some x →
  get (next_matrix g) r c = Some (next_cell n x).
Proof.
  unfold get, next_matrix. intros Hn Hx. rewrite lookup_zip_with.
  destruct (live_neighbors g !! r) as [lnrow|]; [|done].
  destruct (g !! r) as [grow|]; [|done]. simpl in *.
  rewrite lookup_zip_with, Hn. simpl. by rewrite Hx.
Qed.

Lemma separate_inv g1 g2 :
  separate g1 g2 → NoDup g1 ∧ NoDup g2 ∧ (∀ l, l ∈ g1 → l ∉ g2).
Proof. unfold separate. rewrite NoDup_app. by intros (? & ? & ?). Qed.

Lemma separate_sym g1 g2 : separate g1 g2 → separate g2 g1.
Proof.
  unfold separate. rewrite !NoDup_app. intros (H1 & H & H2).
  split_and!; [done| |done]. intros l Hl2 Hl1. by eapply H.
Qed.

Lemma asarray_value w g m rows cols :
  (0 < rows)%nat → contents (heap w) g = Some m → shape rows cols m →
  asarray g w = Some (m, w).
Proof.
  intros Hrows Hc [Hl HF]. unfold asarray. rewrite Hc.
  destruct m as [|r0 rs]; [cbn in Hl; lia|].
  apply Forall_cons in HF as [H0 HF].
  rewrite bool_decide_eq_true_2; [done|].
  eapply Forall_impl; [exact HF|]. intros r Hr. cbn in Hr. congruence.
Qed.

(** What one call of [create_next_grid] does to the world: the rows of
    [next_grid] now hold the successor of the grid, nothing else moved. *)
Lemma create_next_grid_value rows cols grid next_grid w gm nm :
  (0 < rows)%nat →
  contents (heap w) grid = Some gm → shape rows cols gm →
  contents (heap w) next_grid = Some nm → shape rows cols nm →
  separate grid next_grid →
  create_next_grid rows cols grid next_grid w
  = Some (tt, World (write_rows next_grid (next_matrix gm) (heap w)) (console w)).
Proof.
  intros Hrows Hg Sg Hn Sn Hsep.
  destruct (separate_inv _ _ Hsep) as (_ & Hnd & Hdisj).
  unfold create_next_grid.
  rewrite (bind_some _ _ _ _ _ (asarray_value _ _ _ _ _ Hrows Hg Sg)).
  pose proof (contents_length _ _ _ Hn) as Hlen. destruct Sn as [Ln Fn].
  pose proof (rows_of_grid rows cols grid next_grid gm Sg Hdisj Hnd rows 0%nat w)
    as Hloop.
  rewrite !drop_0 in Hloop. apply Hloop; [done|done| |lia].
  intros i l _ Hl.
  destruct (lookup_lt_is_Some_2 nm i) as [old Hold].
  { apply lookup_lt_Some in Hl. lia. }
  destruct (contents_row _ _ _ _ _ Hn Hold) as (l' & Hl' & Hh).
  exists old. split; [congruence|].
  rewrite Forall_lookup in Fn. by eapply Fn.
Qed.

(** *** [print_grid] *)

Section print_grid_facts.
Variables (rows cols : nat) (grid : gridref) (w : world) (gm : matrix).
Hypothesis Hgrid : contents (heap w) grid = Some gm.
Hypothesis Sgrid : shape rows cols gm.

Lemma print_cols row grow :
  gm !! row = Some grow →
  ∀ n c0 s, (c0 + n = cols)%nat →
  for_fold (seq c0 n) (append_cell grid row) s w
  = Some (render_row (drop c0 grow) s, w).
Proof.
  intros Hrow. pose proof (shape_row _ _ _ _ _ Sgrid Hrow) as Lg.
  induction n as [|n IH]; intros c0 s Hc.
  - rewrite drop_ge by lia. done.
  - destruct (lookup_lt_is_Some_2 grow c0) as [x Hx]; [lia|].
    rewrite (drop_S _ _ _ Hx). cbn [seq for_fold].
    erewrite bind_some; last first.
    { unfold append_cell.
      rewrite (bind_some _ _ _ _ _ (load_row _ _ _ _ _ _ _ Hgrid Hrow Hx)).
      instantiate (1 := w).
      instantiate (1 := if x =? 0 then String.app s ". " else String.app s "@ ").
      by destruct (x =? 0). }
    rewrite IH by lia. done.
Qed.

Lemma print_rows :
  ∀ n r0 s, (r0 + n = rows)%nat →
  for_fold (seq r0 n) (λ row output_str,
      for_fold (range cols) (append_cell grid row) output_str ≫= λ output_str,
      mret (String.app output_str newline)) s w
  = Some (foldl (λ s row, String.app (render_row row s) newline) s (drop r0 gm), w).
Proof.
  destruct Sgrid as [Lg _].
  induction n as [|n IH]; intros r0 s Hr.
  - rewrite drop_ge by lia. done.
  - destruct (lookup_lt_is_Some_2 gm r0) as [grow Hrow]; [lia|].
    rewrite (drop_S _ _ _ Hrow). cbn [seq for_fold foldl].
    erewrite bind_some; last first.
    { rewrite (bind_some _ _ _ _ _ (print_cols r0 grow Hrow cols 0%nat s eq_refl)).
      rewrite drop_0. apply ret_eq. }
    by rewrite IH by lia.
Qed.

End print_grid_facts.

Lemma print_grid_value rows cols grid w gm generation :
  contents (heap w) grid = Some gm → shape rows cols gm →
  print_grid rows cols grid generation w
  = Some (tt, World (heap w)
                    (console w ++ [ClearConsole; Output (render gm generation)])).
Proof.
  intros Hg Sg. unfold print_grid.
  erewrite bind_some; [|reflexivity].
  set (w1 := World (heap w) (console w ++ [ClearConsole])).
  erewrite bind_some; last first.
  { apply (print_rows rows cols grid w1 gm Hg Sg rows 0%nat); done. }
  rewrite drop_0. unfold emit, w1. cbn [heap console].
  by rewrite <- app_assoc.
Qed.

(** *** The generation loop *)

Lemma generation_at_succ_r g n :
  generation_at (next_matrix g) n = generation_at g (S n).
Proof.
  unfold generation_at. symmetry. apply Nat.iter_succ_r.
Qed.

Lemma shape_generation_at rows cols g n :
  shape rows cols g → shape rows cols (generation_at g n).
Proof.
  intros Sg. induction n as [|n IH]; [done|].
  by apply shape_next_matrix.
Qed.

Lemma advances_le gens cm nm : (advances gens cm nm ≤ length gens)%nat.
Proof.
  revert cm nm. induction gens as [|g gens IH]; intros cm nm; cbn; [done|].
  case_bool_decide; [lia|]. specialize (IH (next_matrix cm) cm). lia.
Qed.

Lemma after_swaps_succ k cur nxt :
  after_swaps k nxt cur = after_swaps (S k) cur nxt.
Proof.
  unfold after_swaps. rewrite Nat.even_succ, <- Nat.negb_even.
  by destruct (Nat.even k).
Qed.

Lemma exit_gen_succ a n gen k :
  exit_gen (S a) n a k = exit_gen a (S n) gen (S k).
Proof.
  unfold exit_gen.
  destruct (Nat.ltb_spec k n), (Nat.ltb_spec (S k) (S n)); try lia.
  destruct n; lia.
Qed.

Lemma holds_step rows cols w cur nxt cm nm evs :
  holds rows cols w cur nxt cm nm →
  holds rows cols
    (World (write_rows nxt (next_matrix cm) (heap w)) evs)
    nxt cur (next_matrix cm) cm.
Proof.
  intros (Hc & Hn & Sc & Sn & Hsep).
  destruct (separate_inv _ _ Hsep) as (Hnc & Hnn & Hdisj).
  pose proof (shape_next_matrix _ _ _ Sc) as Snext.
  unfold holds. cbn [heap]. split_and!; [| |done|done|by apply separate_sym].
  - apply write_rows_contents; [done|].
    rewrite (contents_length _ _ _ Hn). destruct Sn, Snext. congruence.
  - by rewrite contents_write_rows_disjoint.
Qed.

Lemma generation_loop_value rows cols :
  (0 < rows)%nat →
  ∀ n a gen cur nxt w cm nm,
    holds rows cols w cur nxt cm nm →
    let k := advances (seq a n) cm nm in
    ∃ w',
      generation_loop rows cols (seq a n) gen cur nxt w
      = Some ((exit_gen a n gen k, (after_swaps k cur nxt).1,
               (after_swaps k cur nxt).2), w')
      ∧ console w' = console w ++ frames cm a k
      ∧ holds rows cols w' (after_swaps k cur nxt).1 (after_swaps k cur nxt).2
              (generation_at cm k) (behind cm nm k)
      ∧ (∀ l, l ∉ cur → l ∉ nxt → heap w' !! l = heap w !! l).
Proof.
  intros Hrows. induction n as [|n IH]; intros a gen cur nxt w cm nm Hw k.
  - exists w. subst k. cbn. rewrite app_nil_r. done.
  - subst k. cbn [seq advances generation_loop].
    destruct Hw as (Hc & Hn & Sc & Sn & Hsep).
    rewrite (bind_some _ _ _ _ _
               (grid_changing_value rows cols cur nxt w cm nm Hc Hn Sc Sn)).
    case_bool_decide as Heq; cbn [negb].
    + exists w. rewrite ret_eq, app_nil_r. cbn. unfold holds.
      rewrite Nat.add_0_r. split_and!; done.
    + erewrite bind_some; [|by eapply print_grid_value].
      erewrite bind_some;
        [|by eapply (create_next_grid_value rows cols cur nxt _ cm nm)].
      erewrite bind_some; [|reflexivity].
      cbn [heap console].
      set (w3 := World _ _).
      assert (holds rows cols w3 nxt cur (next_matrix cm) cm) as Hw3.
      { apply (holds_step rows cols w cur nxt cm nm). by unfold holds. }
      destruct (IH (S a) a nxt cur w3 (next_matrix cm) cm Hw3)
        as (w' & Hrun & Hcon & Hw' & Hfr).
      set (k' := advances (seq (S a) n) (next_matrix cm) cm) in *.
      exists w'. split_and!.
      * rewrite Hrun. fold k'.
        by rewrite (exit_gen_succ a n gen k'), after_swaps_succ.
      * rewrite Hcon. unfold w3. cbn [console frames].
        rewrite <- !app_assoc. done.
      * rewrite <- after_swaps_succ, <- generation_at_succ_r.
        replace (behind cm nm (S k')) with (behind (next_matrix cm) cm k'); [done|].
        destruct k' as [|k'']; [done|]. cbn [behind].
        apply generation_at_succ_r.
      * intros l Hlc Hln. rewrite Hfr by done. unfold w3. cbn [heap].
        by apply write_rows_notin.
Qed.

Lemma run_simulation_value rows cols cur nxt w cm nm :
  (0 < rows)%nat → holds rows cols w cur nxt cm nm →
  let k := advances (seq 1 generations) cm nm in
  let gen := exit_gen 1 generations 1 k in
  ∃ w',
    run_simulation rows cols cur nxt w
    = Some ((gen, (after_swaps k cur nxt).1, (after_swaps k cur nxt).2), w')
    ∧ console w'
      = console w ++ frames cm 1 k
          ++ [ClearConsole; Output (render (generation_at cm k) gen)]
    ∧ holds rows cols w' (after_swaps k cur nxt).1 (after_swaps k cur nxt).2
            (generation_at cm k) (behind cm nm k)
    ∧ (∀ l, l ∉ cur → l ∉ nxt → heap w' !! l = heap w !! l).
Proof.
  intros Hrows Hw k gen.
  destruct (generation_loop_value rows cols Hrows generations 1 1 cur nxt w cm nm Hw)
    as (w1 & Hrun & Hcon & Hw1 & Hfr).
  fold k in Hrun, Hcon, Hw1. fold gen in Hrun.
  unfold run_simulation, range2. rewrite Nat.add_sub.
  rewrite (bind_some _ _ _ _ _ Hrun). cbn [fst snd].
  destruct Hw1 as (Hc1 & Hn1 & Sc1 & Sn1 & Hsep1).
  erewrite bind_some; [|by eapply print_grid_value].
  rewrite ret_eq. eexists. split; [done|]. cbn [heap console].
  rewrite Hcon, <- app_assoc. unfold holds. done.
Qed.

(** *** What the two functions can change, whatever their arguments *)

Lemma load_pure g r c w x w' : load g r c w = Some (x, w') → w' = w.
Proof.
  unfold load. destruct (g !! r) as [l|]; [|done].
  destruct (heap w !! l) as [row|]; [|done].
  destruct (row !! c); [|done]. by intros [= _ <-].
Qed.

Lemma compare_cell_pure grid next_grid r c w b w' :
  compare_cell grid next_grid r c w = Some (b, w') → w' = w.
Proof.
  unfold compare_cell. intros H.
  apply bind_inv in H as (x & w1 & H1 & H). apply load_pure in H1 as ->.
  apply bind_inv in H as (y & w2 & H2 & H). apply load_pure in H2 as ->.
  destruct (negb (x =? y)); by injection H as _ <-.
Qed.

Lemma for_return_pure {A R} (l : list A) (body : A → M (option R)) :
  (∀ x w r w', body x w = Some (r, w') → w' = w) →
  ∀ w r w', for_return l body w = Some (r, w') → w' = w.
Proof.
  intros Hbody. induction l as [|x l IH]; intros w r w' H.
  - by injection H as _ <-.
  - cbn [for_return] in H. apply bind_inv in H as (o & w1 & H1 & H).
    apply Hbody in H1 as ->. destruct o; [by injection H as _ <-|by eapply IH].
Qed.

Lemma grid_changing_pure rows cols grid next_grid w b w' :
  grid_changing rows cols grid next_grid w = Some (b, w') → w' = w.
Proof.
  unfold grid_changing. intros H. apply bind_inv in H as (o & w1 & H1 & H).
  injection H as _ <-. revert H1. apply for_return_pure.
  intros row w2 r w3. apply for_return_pure.
  intros col w4 r' w5. apply compare_cell_pure.
Qed.

Lemma unchanged_outside_refl ls w : unchanged_outside ls w w.
Proof. by split. Qed.

Lemma unchanged_outside_trans ls w1 w2 w3 :
  unchanged_outside ls w1 w2 → unchanged_outside ls w2 w3 →
  unchanged_outside ls w1 w3.
Proof.
  intros [C1 H1] [C2 H2]. split; [congruence|].
  intros l Hl. by rewrite H2, H1.
Qed.

Lemma store_frame g r c v w u w' :
  store g r c v w = Some (u, w') → unchanged_outside g w w'.
Proof.
  unfold store. destruct (g !! r) as [l|] eqn:Hl; [|done].
  destruct (heap w !! l) as [row|]; [|done].
  destruct (decide (c < length row)%nat); [|done]. intros [= _ <-].
  split; [done|]. intros l' Hl'. cbn [heap]. apply lookup_insert_ne.
  intros ->. apply Hl'. by eapply list_elem_of_lookup_2.
Qed.

Lemma update_cell_frame ln grid next_grid r c w u w' :
  update_cell ln grid next_grid r c w = Some (u, w') →
  unchanged_outside next_grid w w'.
Proof.
  unfold update_cell. intros H. apply bind_inv in H as (n & w1 & H1 & H).
  assert (w1 = w) as ->.
  { unfold lift in H1. destruct (get ln r c); [by injection H1 as _ <-|done]. }
  destruct ((n <? 2) || (3 <? n)); [by eapply store_frame|].
  apply bind_inv in H as (birth & w2 & H2 & H).
  assert (w2 = w) as ->.
  { destruct (n =? 3); [|by injection H2 as _ <-].
    apply bind_inv in H2 as (x & w3 & H3 & H2). apply load_pure in H3 as ->.
    by injection H2 as _ <-. }
  destruct birth; [by eapply store_frame|].
  apply bind_inv in H as (x & w3 & H3 & H). apply load_pure in H3 as ->.
  by eapply store_frame.
Qed.

Lemma for_each_frame {A} ls (l : list A) (body : A → M unit) :
  (∀ x w u w', body x w = Some (u, w') → unchanged_outside ls w w') →
  ∀ w u w', for_each l body w = Some (u, w') → unchanged_outside ls w w'.
Proof.
  intros Hbody. induction l as [|x l IH]; intros w u w' H.
  - injection H as _ <-. apply unchanged_outside_refl.
  - cbn [for_each] in H. apply bind_inv in H as (u1 & w1 & H1 & H).
    eapply unchanged_outside_trans; [by eapply Hbody|by eapply IH].
Qed.

(** Whenever [create_next_grid] returns, the console and every row object
    that is not a row of [next_grid] are as they were. *)
Lemma create_next_grid_frame rows cols grid next_grid w u w' :
  create_next_grid rows cols grid next_grid w = Some (u, w') →
  unchanged_outside next_grid w w'.
Proof.
  unfold create_next_grid. intros H. apply bind_inv in H as (a & w1 & H1 & H).
  assert (w1 = w) as ->.
  { unfold asarray in H1. destruct (contents (heap w) grid) as [[|r0 rs]|];
      [done| |done].
    destruct (bool_decide _); [by injection H1 as _ <-|done]. }
  revert H. apply for_each_frame. intros row w2 u2 w3.
  apply for_each_frame. intros col w4 u4 w5. apply update_cell_frame.
Qed.

(** *** Claims *)

(** C2. The neighbour-count array that [create_next_grid] computes from a
    [rows] x [cols] grid of 0/1 cells (the convolution of the grid with the
    kernel [k], padded with zeros) holds at [(r, c)] the number of live
    cells among the Moore neighbours of [(r, c)] that lie inside the grid;
    positions outside contribute nothing.  A cell draws from at most 8
    positions, a corner cell from at most 3 and an edge cell from at most
    5. *)
Theorem live_neighbors_counts_moore rows cols grid w gm r c :
  (0 < rows)%nat → contents (heap w) grid = Some gm →
  shape rows cols gm → binary gm → (r < rows)%nat → (c < cols)%nat →
  asarray grid w = Some (gm, w)
  ∧ get (live_neighbors gm) r c = Some (Moore.live_count rows cols gm r c)
  ∧ 0 ≤ Moore.live_count rows cols gm r c
      ≤ Z.of_nat (length (Moore.neighbors rows cols r c))
  ∧ (length (Moore.neighbors rows cols r c) ≤ 8)%nat
  ∧ (Moore.corner rows cols r c →
     (length (Moore.neighbors rows cols r c) ≤ 3)%nat)
  ∧ (Moore.edge rows cols r c →
     (length (Moore.neighbors rows cols r c) ≤ 5)%nat).
Proof.
  intros Hrows Hg Sg Bg Hr Hc. split_and!.
  - by eapply asarray_value.
  - by apply live_neighbors_get.
  - apply live_count_bounds.
  - apply live_count_bounds.
  - apply neighbors_length_le.
  - by apply neighbors_corner.
  - by apply neighbors_edge.
Qed.

Lemma live_neighbors_counts_moore_witness :
  get (live_neighbors block) 4 3 = Some (Moore.live_count 10 10 block 4 3)
  ∧ Moore.live_count 10 10 block 4 3 = 2
  ∧ (length (Moore.neighbors 10 10 0 0) ≤ 3)%nat.
Proof.
  pose proof (live_neighbors_counts_moore 10 10 (first_grid block)
                (world_of block block) block 4 3) as H4.
  pose proof (live_neighbors_counts_moore 10 10 (first_grid block)
                (world_of block block) block 0 0) as H0.
  split_and!.
  - apply H4; [lia|reflexivity| | |lia|lia]; compute_done.
  - reflexivity.
  - apply H0; [lia|reflexivity| | |lia|lia|]; compute_done.
Defined.

(** The state of the store after [create_next_grid], in terms of the
    values of the grids. *)
Lemma create_next_grid_holds rows cols grid next_grid w gm nm :
  (0 < rows)%nat → holds rows cols w grid next_grid gm nm →
  ∃ w',
    create_next_grid rows cols grid next_grid w = Some (tt, w')
    ∧ holds rows cols w' next_grid grid (next_matrix gm) gm
    ∧ console w' = console w
    ∧ (∀ l, l ∉ next_grid → heap w' !! l = heap w !! l).
Proof.
  intros Hrows Hw. pose proof Hw as (Hg & Hn & Sg & Sn & Hsep).
  eexists. split; [by eapply create_next_grid_value|].
  split; [by eapply holds_step|]. split; [done|].
  intros l Hl. cbn [heap]. by apply write_rows_notin.
Qed.

(** C1. For a [rows] x [cols] grid of 0/1 cells, [create_next_grid] returns
    and leaves in every cell of [next_grid] the value 1 when the cell has
    exactly 3 live neighbours, or exactly 2 and is alive, and the value 0 in
    every other case. *)
Theorem create_next_grid_rule rows cols grid next_grid w gm nm :
  (0 < rows)%nat → holds rows cols w grid next_grid gm nm → binary gm →
  ∃ w',
    create_next_grid rows cols grid next_grid w = Some (tt, w')
    ∧ ∀ r c, (r < rows)%nat → (c < cols)%nat →
        ∃ x v,
          get gm r c = Some x
          ∧ load next_grid r c w' = Some (v, w')
          ∧ let n := Moore.live_count rows cols gm r c in
            (n = 3 ∨ (n = 2 ∧ x = 1) → v = 1)
            ∧ (¬ (n = 3 ∨ (n = 2 ∧ x = 1)) → v = 0).
Proof.
  intros Hrows Hw Bg.
  destruct (create_next_grid_holds _ _ _ _ _ _ _ Hrows Hw)
    as (w' & Hrun & (Hn' & Hg' & Sn' & _ & _) & _ & _).
  destruct Hw as (Hg & Hn & Sg & Sn & Hsep).
  exists w'. split; [done|]. intros r c Hr Hc.
  destruct (shape_get _ _ _ r c Sg Hr Hc) as [x Hx].
  pose proof (live_neighbors_get _ _ _ Sg Bg r c Hr Hc) as Hcount.
  exists x, (next_cell (Moore.live_count rows cols gm r c) x).
  split; [done|]. split.
  { eapply load_get; [done|]. by apply get_next_matrix. }
  destruct (binary_get _ _ _ _ Bg Hx) as [-> | ->];
    unfold next_cell; cbn zeta; split; intros H;
    repeat match goal with
      | |- context [Z.ltb ?a ?b] => destruct (Z.ltb_spec a b)
      | |- context [Z.eqb ?a ?b] => destruct (Z.eqb_spec a b)
      end; cbn; lia.
Qed.

Lemma create_next_grid_rule_witness :
  ∃ w',
    create_next_grid 5 5 (first_grid blinker_h) (second_grid blinker_h blinker_h)
      (world_of blinker_h blinker_h) = Some (tt, w')
    ∧ ∀ r c, (r < 5)%nat → (c < 5)%nat →
        ∃ x v,
          get blinker_h r c = Some x
          ∧ load (second_grid blinker_h blinker_h) r c w' = Some (v, w')
          ∧ let n := Moore.live_count 5 5 blinker_h r c in
            (n = 3 ∨ (n = 2 ∧ x = 1) → v = 1)
            ∧ (¬ (n = 3 ∨ (n = 2 ∧ x = 1)) → v = 0).
Proof.
  apply (create_next_grid_rule 5 5 _ _ _ blinker_h blinker_h);
    [lia|compute_done|compute_done].
Defined.

(** C5. For two [rows] x [cols] grids, [grid_changing] returns [False]
    exactly when the grids agree in every cell, and [True] as soon as one
    cell differs. *)
Theorem grid_changing_iff_differ rows cols grid next_grid w gm nm :
  contents (heap w) grid = Some gm → shape rows cols gm →
  contents (heap w) next_grid = Some nm → shape rows cols nm →
  ∃ b,
    grid_changing rows cols grid next_grid w = Some (b, w)
    ∧ (b = false ↔
       ∀ r c, (r < rows)%nat → (c < cols)%nat → get gm r c = get nm r c)
    ∧ ((∃ r c, (r < rows)%nat ∧ (c < cols)%nat ∧ get gm r c ≠ get nm r c) →
       b = true).
Proof.
  intros Hg Sg Hn Sn. exists (negb (bool_decide (gm = nm))).
  split; [by apply grid_changing_value|].
  assert ((∀ r c, (r < rows)%nat → (c < cols)%nat → get gm r c = get nm r c)
          ↔ gm = nm) as Heq.
  { split; [by apply shape_eq_get|by intros ->]. }
  split.
  - rewrite Heq. rewrite negb_false_iff. apply bool_decide_eq_true.
  - intros (r & c & Hr & Hc & Hne). rewrite negb_true_iff.
    apply bool_decide_eq_false. intros ->. done.
Qed.

Lemma grid_changing_iff_differ_witness :
  ∃ b,
    grid_changing 5 5 (first_grid blinker_h) (second_grid blinker_h blinker_v)
      (world_of blinker_h blinker_v) = Some (b, world_of blinker_h blinker_v)
    ∧ (b = false ↔
       ∀ r c, (r < 5)%nat → (c < 5)%nat → get blinker_h r c = get blinker_v r c)
    ∧ ((∃ r c, (r < 5)%nat ∧ (c < 5)%nat ∧ get blinker_h r c ≠ get blinker_v r c) →
       b = true).
Proof.
  apply (grid_changing_iff_differ 5 5 _ _ _ blinker_h blinker_v); compute_done.
Defined.

(** C9. Neither function disturbs what it only reads.  On two [rows] x
    [cols] grids, [grid_changing] returns in the world it was called in, so
    both grids are as they were; and when the grids share no row,
    [create_next_grid] returns with [grid] holding the same values: the
    console and every row object outside [next_grid] are as they were. *)
Theorem reads_leave_grids_unchanged rows cols grid next_grid w gm nm :
  (0 < rows)%nat →
  contents (heap w) grid = Some gm → shape rows cols gm →
  contents (heap w) next_grid = Some nm → shape rows cols nm →
  (∃ b, grid_changing rows cols grid next_grid w = Some (b, w))
  ∧ (separate grid next_grid →
     ∃ w',
       create_next_grid rows cols grid next_grid w = Some (tt, w')
       ∧ contents (heap w') grid = Some gm
       ∧ (∀ l, l ∈ grid → heap w' !! l = heap w !! l)
       ∧ unchanged_outside next_grid w w').
Proof.
  intros Hrows Hg Sg Hn Sn. split.
  - eexists. by eapply grid_changing_value.
  - intros Hsep.
    assert (holds rows cols w grid next_grid gm nm) as Hw by done.
    destruct (create_next_grid_holds _ _ _ _ _ _ _ Hrows Hw)
      as (w' & Hrun & (Hn' & Hg' & _) & Hcon & Hfr).
    destruct (separate_inv _ _ Hsep) as (_ & _ & Hdisj).
    exists w'. split_and!; try done.
    intros l Hl. apply Hfr. by apply Hdisj.
Qed.

Lemma reads_leave_grids_unchanged_witness :
  (∃ b, grid_changing 10 10 (first_grid block) (second_grid block lone_cell)
          (world_of block lone_cell) = Some (b, world_of block lone_cell))
  ∧ ∃ w',
      create_next_grid 10 10 (first_grid block) (second_grid block lone_cell)
        (world_of block lone_cell) = Some (tt, w')
      ∧ contents (heap w') (first_grid block) = Some block
      ∧ (∀ l, l ∈ first_grid block →
           heap w' !! l = heap (world_of block lone_cell) !! l)
      ∧ unchanged_outside (second_grid block lone_cell)
          (world_of block lone_cell) w'.
Proof.
  destruct (reads_leave_grids_unchanged 10 10 (first_grid block)
              (second_grid block lone_cell) (world_of block lone_cell)
              block lone_cell) as [Hread Hstep];
    [lia|reflexivity|compute_done|reflexivity|compute_done|].
  split; [exact Hread|]. apply Hstep. compute_done.
Defined.

(** C10. The step keeps cells binary and the grid's size: after
    [create_next_grid], [next_grid] is again a [rows] x [cols] grid, each of
    its cells is 0, 1 or the value of the same cell of [grid], and so all
    its cells are 0 or 1 when those of [grid] are. *)
Theorem create_next_grid_binary rows cols grid next_grid w gm nm :
  (0 < rows)%nat → holds rows cols w grid next_grid gm nm →
  ∃ w' nm',
    create_next_grid rows cols grid next_grid w = Some (tt, w')
    ∧ contents (heap w') next_grid = Some nm'
    ∧ shape rows cols nm'
    ∧ length next_grid = rows
    ∧ (∀ r c x v, get gm r c = Some x → get nm' r c = Some v →
         v = 0 ∨ v = 1 ∨ v = x)
    ∧ (binary gm → binary nm').
Proof.
  intros Hrows Hw.
  destruct (create_next_grid_holds _ _ _ _ _ _ _ Hrows Hw)
    as (w' & Hrun & (Hn' & Hg' & Sn' & _ & _) & _ & _).
  destruct Hw as (Hg & Hn & Sg & Sn & Hsep).
  assert (∀ r c x v, get gm r c = Some x → get (next_matrix gm) r c = Some v →
            v = 0 ∨ v = 1 ∨ v = x) as Hcells.
  { intros r c x v Hx Hv.
    assert (is_Some (get (live_neighbors gm) r c)) as [n Hcount].
    { unfold get, next_matrix in *. rewrite lookup_zip_with in Hv.
      destruct (live_neighbors gm !! r) as [lnrow|]; [|done].
      destruct (gm !! r) as [grow|]; [|done]. simpl in *.
      rewrite lookup_zip_with in Hv.
      destruct (lnrow !! c); [by eexists|done]. }
    rewrite (get_next_matrix _ _ _ _ _ Hcount Hx) in Hv.
    injection Hv as <-. unfold next_cell.
    destruct ((n <? 2) || (3 <? n)); [by left|].
    destruct ((n =? 3) && (x =? 0)); [by right; left|by right; right]. }
  exists w', (next_matrix gm). split_and!; try done.
  - rewrite (contents_length _ _ _ Hn). by destruct Sn.
  - intros Bg. apply Forall_lookup. intros r row Hrow.
    apply Forall_lookup. intros c v Hv.
    assert (get (next_matrix gm) r c = Some v) as Hget.
    { unfold get. by rewrite Hrow. }
    destruct Sn' as [Ln' Fn'].
    pose proof (lookup_lt_Some _ _ _ Hrow) as Hr.
    pose proof (lookup_lt_Some _ _ _ Hv) as Hc.
    rewrite Forall_lookup in Fn'. rewrite (Fn' _ _ Hrow) in Hc.
    destruct (shape_get _ _ _ r c Sg) as [x Hx]; [lia|lia|].
    destruct (Hcells _ _ _ _ Hx Hget) as [?|[?| ->]]; [by left|by right|].
    by eapply binary_get.
Qed.

Lemma create_next_grid_binary_witness :
  ∃ w' nm',
    create_next_grid 10 10 (first_grid block) (second_grid block lone_cell)
      (world_of block lone_cell) = Some (tt, w')
    ∧ contents (heap w') (second_grid block lone_cell) = Some nm'
    ∧ shape 10 10 nm'
    ∧ length (second_grid block lone_cell) = 10%nat
    ∧ (∀ r c x v, get block r c = Some x → get nm' r c = Some v →
         v = 0 ∨ v = 1 ∨ v = x)
    ∧ (binary block → binary nm').
Proof.
  apply (create_next_grid_binary 10 10 _ _ _ block lone_cell);
    [lia|compute_done].
Defined.

(** *** Grids with at most one live cell *)

Section lone_cell.
Variables (rows cols : nat) (g : matrix) (r0 c0 : nat).
Hypothesis Sg : shape rows cols g.
Hypothesis Bg : binary g.
Hypothesis Hlone :
  ∀ r c, (r < rows)%nat → (c < cols)%nat → get g r c = Some 1 → (r, c) = (r0, c0).

Lemma alive_neighbor_is_lone r c p :
  p ∈ Moore.neighbors rows cols r c → Moore.alive_at g p = true →
  p = (Z.of_nat r0, Z.of_nat c0).
Proof.
  unfold Moore.neighbors, Moore.in_bounds, Moore.alive_at.
  intros Hp Ha. apply list_elem_of_filter in Hp as [Hin _].
  apply bool_decide_eq_true in Hin. apply bool_decide_eq_true in Ha.
  destruct p as [p1 p2]. cbn [fst snd] in *.
  assert ((Z.to_nat p1, Z.to_nat p2) = (r0, c0)) as Heq.
  { apply Hlone; [lia|lia|done]. }
  injection Heq as <- <-. f_equal; lia.
Qed.

Lemma NoDup_neighbors r c : NoDup (Moore.neighbors rows cols r c).
Proof.
  unfold Moore.neighbors. apply NoDup_filter. apply NoDup_fmap_2.
  - intros [a1 a2] [b1 b2] [= H1 H2]. f_equal; lia.
  - unfold Moore.offsets. compute_done.
Qed.

Lemma live_count_lone r c : Moore.live_count rows cols g r c ≤ 1.
Proof.
  unfold Moore.live_count.
  set (l := filter _ _).
  assert (NoDup l) as Hnd by apply NoDup_filter, NoDup_neighbors.
  assert (∀ p, p ∈ l → p = (Z.of_nat r0, Z.of_nat c0)) as Hall.
  { intros p Hp. apply list_elem_of_filter in Hp as [Ha Hp].
    by eapply alive_neighbor_is_lone. }
  destruct l as [|p [|q l']]; cbn [length]; [lia|lia|].
  exfalso. apply NoDup_cons in Hnd as [Hp _]. apply Hp.
  rewrite (Hall p) by left. rewrite (Hall q) by (right; left). left.
Qed.

Lemma next_matrix_lone : next_matrix g = zeros rows cols.
Proof.
  apply (shape_eq_get rows cols);
    [by apply shape_next_matrix|apply shape_zeros|].
  intros r c Hr Hc. rewrite get_zeros by done.
  destruct (shape_get _ _ _ r c Sg Hr Hc) as [x Hx].
  rewrite (get_next_matrix _ _ _ _ _ (live_neighbors_get _ _ _ Sg Bg r c Hr Hc) Hx).
  pose proof (live_count_lone r c) as Hle.
  unfold next_cell. by rewrite (proj2 (Z.ltb_lt _ 2)) by lia.
Qed.
End lone_cell.

Lemma binary_zeros rows cols : binary (zeros rows cols).
Proof.
  unfold binary, zeros. apply Forall_replicate, Forall_replicate. by left.
Qed.

Lemma next_matrix_zeros rows cols :
  next_matrix (zeros rows cols) = zeros rows cols.
Proof.
  apply (next_matrix_lone rows cols _ 0 0);
    [apply shape_zeros|apply binary_zeros|].
  intros r c Hr Hc. by rewrite get_zeros.
Qed.

Lemma live_positions_spec rows cols g r c :
  (r < rows)%nat → (c < cols)%nat → get g r c = Some 1 →
  (r, c) ∈ live_positions rows cols g.
Proof.
  intros Hr Hc Hg. unfold live_positions. apply list_elem_of_filter.
  split; [done|]. apply list_elem_of_In, in_prod; apply in_seq; lia.
Qed.

(** C7. A [rows] x [cols] grid of 0/1 cells whose only live cell is
    [(r0, c0)] is turned into the all-dead grid by [create_next_grid], and
    so is the all-dead grid itself. *)
Theorem lone_cell_dies rows cols grid next_grid w gm nm r0 c0 :
  (0 < rows)%nat → holds rows cols w grid next_grid gm nm → binary gm →
  live_positions rows cols gm = [(r0, c0)] ∨ gm = zeros rows cols →
  ∃ w',
    create_next_grid rows cols grid next_grid w = Some (tt, w')
    ∧ contents (heap w') next_grid = Some (zeros rows cols)
    ∧ contents (heap w') grid = Some gm.
Proof.
  intros Hrows Hw Bg Hlive.
  destruct (create_next_grid_holds _ _ _ _ _ _ _ Hrows Hw)
    as (w' & Hrun & (Hn' & Hg' & _) & _ & _).
  destruct Hw as (_ & _ & Sg & _ & _).
  exists w'. split; [done|]. split; [|done].
  rewrite Hn'. f_equal. destruct Hlive as [Hlive| ->].
  - apply (next_matrix_lone rows cols gm r0 c0); [done..|].
    intros r c Hr Hc Hg.
    pose proof (live_positions_spec _ _ _ _ _ Hr Hc Hg) as Hin.
    rewrite Hlive in Hin. by apply list_elem_of_singleton in Hin.
  - apply next_matrix_zeros.
Qed.

Lemma lone_cell_dies_witness :
  (∃ w',
    create_next_grid 10 10 (first_grid lone_cell) (second_grid lone_cell block)
      (world_of lone_cell block) = Some (tt, w')
    ∧ contents (heap w') (second_grid lone_cell block) = Some (zeros 10 10)
    ∧ contents (heap w') (first_grid lone_cell) = Some lone_cell)
  ∧ (∃ w',
    create_next_grid 10 10 (first_grid (zeros 10 10))
      (second_grid (zeros 10 10) block)
      (world_of (zeros 10 10) block) = Some (tt, w')
    ∧ contents (heap w') (second_grid (zeros 10 10) block) = Some (zeros 10 10)
    ∧ contents (heap w') (first_grid (zeros 10 10)) = Some (zeros 10 10)).
Proof.
  split.
  - apply (lone_cell_dies 10 10 _ _ _ lone_cell block 0 7);
      [lia|compute_done|compute_done|left; reflexivity].
  - apply (lone_cell_dies 10 10 _ _ _ (zeros 10 10) block 0 0);
      [lia|compute_done|compute_done|right; reflexivity].
Defined.

(** *** How far the loop advances *)

Lemma advances_cons g gens cm nm :
  advances (g :: gens) cm nm
  = if bool_decide (cm = nm) then 0%nat
    else S (advances gens (next_matrix cm) cm).
Proof. done. Qed.

Lemma advances_never_stable gens cm nm :
  cm ≠ nm → (∀ n, generation_at cm (S n) ≠ generation_at cm n) →
  advances gens cm nm = length gens.
Proof.
  revert cm nm. induction gens as [|g gens IH]; intros cm nm Hne Hosc; [done|].
  rewrite advances_cons, bool_decide_eq_false_2 by done. cbn [length]. f_equal.
  apply IH.
  - apply (Hosc 0%nat).
  - intros n. rewrite !generation_at_succ_r. apply Hosc.
Qed.

Lemma advances_still_life g1 g2 gens cm nm :
  cm ≠ nm → next_matrix cm = cm → advances (g1 :: g2 :: gens) cm nm = 1%nat.
Proof.
  intros Hne Hfix. rewrite advances_cons, bool_decide_eq_false_2 by done.
  by rewrite advances_cons, Hfix, bool_decide_eq_true_2.
Qed.

Lemma frames_lookup cm gen k i :
  (i < k)%nat →
  frames cm gen k !! (3 * i + 1)%nat
  = Some (Output (render (generation_at cm i) (gen + i))).
Proof.
  revert cm gen i. induction k as [|k IH]; intros cm gen i Hi; [lia|].
  destruct i as [|i].
  - cbn. by rewrite Nat.add_0_r.
  - replace (3 * S i + 1)%nat with (S (S (S (3 * i + 1)))) by lia.
    cbn [frames lookup list_lookup].
    rewrite IH by lia. rewrite generation_at_succ_r.
    do 3 f_equal. lia.
Qed.

Lemma length_frames cm gen k : length (frames cm gen k) = (3 * k)%nat.
Proof.
  revert cm gen. induction k as [|k IH]; intros cm gen; [done|].
  cbn [frames length]. rewrite IH. lia.
Qed.

Lemma exit_gen_cases a n gen0 k :
  (0 < n)%nat → (k ≤ n)%nat →
  (k < n ∧ exit_gen a n gen0 k = a + k)%nat
  ∨ (k = n ∧ exit_gen a n gen0 k = a + n - 1)%nat.
Proof.
  intros Hn Hk. unfold exit_gen. destruct (Nat.ltb_spec k n); [left; lia|].
  right. destruct n; lia.
Qed.

(** Whatever the two grids are, a loop that returns leaves [gen] at its
    initial value or at a value of the range. *)
Lemma generation_loop_counter rows cols gens :
  ∀ gen cur nxt w r w',
    generation_loop rows cols gens gen cur nxt w = Some (r, w') →
    r.1.1 = gen ∨ r.1.1 ∈ gens.
Proof.
  induction gens as [|g gens IH]; intros gen cur nxt w r w' H.
  - injection H as <- _. by left.
  - cbn [generation_loop] in H. apply bind_inv in H as (b & w1 & _ & H).
    destruct (negb b).
    + injection H as <- _. right. left.
    + apply bind_inv in H as (u1 & w2 & _ & H).
      apply bind_inv in H as (u2 & w3 & _ & H).
      apply bind_inv in H as (u3 & w4 & _ & H).
      apply IH in H as [->|Hin]; right; [left|by right].
Qed.

Lemma run_simulation_counter rows cols cur nxt w r w' :
  run_simulation rows cols cur nxt w = Some (r, w') →
  (1 ≤ r.1.1 ≤ 5000)%nat.
Proof.
  unfold run_simulation, range2. rewrite Nat.add_sub. intros H.
  apply bind_inv in H as (r1 & w1 & Hloop & H).
  apply bind_inv in H as (u & w2 & _ & H). injection H as <- _.
  apply generation_loop_counter in Hloop as [->|Hin]; [lia|].
  apply list_elem_of_In, in_seq in Hin. unfold generations in Hin. lia.
Qed.

(** C8. In the simulation loop of [run_game] the counter [gen] is 1 in the
    first iteration and one more in each iteration after an advancing one:
    the [i]-th advancing iteration (from 0) shows its grid as generation
    [1 + i].  After [k] advancing iterations the loop is left, either at
    iteration [k + 1] by the stability test or after iteration 5000, so
    [gen] never exceeds 5000 and at most 5000 iterations run. *)
Theorem generation_counter_bounded rows cols cur nxt w cm nm :
  (0 < rows)%nat → holds rows cols w cur nxt cm nm →
  ∃ k gen cur' nxt' w',
    run_simulation rows cols cur nxt w = Some ((gen, cur', nxt'), w')
    ∧ console w'
      = console w ++ frames cm 1 k
          ++ [ClearConsole; Output (render (generation_at cm k) gen)]
    ∧ (∀ i, (i < k)%nat →
         frames cm 1 k !! (3 * i + 1)%nat
         = Some (Output (render (generation_at cm i) (1 + i))))
    ∧ (k ≤ 5000)%nat ∧ (1 ≤ gen ≤ 5000)%nat
    ∧ ((k < 5000 ∧ gen = k + 1)%nat ∨ (k = 5000 ∧ gen = 5000)%nat).
Proof.
  intros Hrows Hw.
  destruct (run_simulation_value _ _ _ _ _ _ _ Hrows Hw)
    as (w' & Hrun & Hcon & _ & _).
  set (k := advances (seq 1 generations) cm nm) in *.
  assert (k ≤ generations)%nat as Hk.
  { unfold k. etrans; [apply advances_le|]. by rewrite length_seq. }
  assert (0 < generations)%nat as Hpos by (unfold generations; lia).
  pose proof (exit_gen_cases 1 generations 1 k Hpos Hk) as Hgen.
  assert (generations = 5000%nat) as Hcap by done.
  rewrite Hcap in Hk, Hgen.
  eexists k, _, _, _, w'. split; [exact Hrun|]. split; [exact Hcon|].
  split; [intros i Hi; by apply frames_lookup|].
  split; [done|]. rewrite Hcap. lia.
Qed.

Lemma generation_counter_bounded_witness :
  ∃ k gen cur' nxt' w',
    run_simulation 10 10 (first_grid block) (second_grid block lone_cell)
      (world_of block lone_cell) = Some ((gen, cur', nxt'), w')
    ∧ console w'
      = console (world_of block lone_cell) ++ frames block 1 k
          ++ [ClearConsole; Output (render (generation_at block k) gen)]
    ∧ (∀ i, (i < k)%nat →
         frames block 1 k !! (3 * i + 1)%nat
         = Some (Output (render (generation_at block i) (1 + i))))
    ∧ (k ≤ 5000)%nat ∧ (1 ≤ gen ≤ 5000)%nat
    ∧ ((k < 5000 ∧ gen = k + 1)%nat ∨ (k = 5000 ∧ gen = 5000)%nat).
Proof.
  apply (generation_counter_bounded 10 10 _ _ _ block lone_cell);
    [lia|compute_done].
Defined.

(** *** The blinker *)

Lemma next_blinker_h : next_matrix blinker_h = blinker_v.
Proof. reflexivity. Qed.

Lemma next_blinker_v : next_matrix blinker_v = blinker_h.
Proof. reflexivity. Qed.

Lemma generation_at_blinker n :
  generation_at blinker_h n = if Nat.even n then blinker_h else blinker_v.
Proof.
  induction n as [|n IH]; [done|].
  change (generation_at blinker_h (S n))
    with (next_matrix (generation_at blinker_h n)).
  rewrite IH, Nat.even_succ, <- Nat.negb_even.
  destruct (Nat.even n); [apply next_blinker_h|apply next_blinker_v].
Qed.

Lemma blinker_never_stable n :
  generation_at blinker_h (S n) ≠ generation_at blinker_h n.
Proof.
  rewrite !generation_at_blinker, Nat.even_succ, <- Nat.negb_even.
  destruct (Nat.even n); cbn [negb]; compute_done.
Qed.

(** C6. From the 5 x 5 grid whose live cells are (2,1), (2,2), (2,3), one
    call of [create_next_grid] gives the grid whose live cells are (1,2),
    (2,2), (3,2), and a second call, on the swapped buffers, gives the
    first grid back.  No generation equals the one before it, and
    [grid_changing] answers [True] on every two consecutive generations; a
    run whose next buffer starts with other values than the blinker goes
    through all 5000 iterations. *)
Theorem blinker_oscillates grid next_grid w nm :
  holds 5 5 w grid next_grid blinker_h nm →
  live_positions 5 5 blinker_h = [(2, 1); (2, 2); (2, 3)]%nat
  ∧ live_positions 5 5 blinker_v = [(1, 2); (2, 2); (3, 2)]%nat
  ∧ (∃ w1 w2,
       create_next_grid 5 5 grid next_grid w = Some (tt, w1)
       ∧ contents (heap w1) next_grid = Some blinker_v
       ∧ create_next_grid 5 5 next_grid grid w1 = Some (tt, w2)
       ∧ contents (heap w2) grid = Some blinker_h)
  ∧ (∀ n, generation_at blinker_h (S n) ≠ generation_at blinker_h n)
  ∧ (∀ n g1 g2 w',
       contents (heap w') g1 = Some (generation_at blinker_h n) →
       contents (heap w') g2 = Some (generation_at blinker_h (S n)) →
       grid_changing 5 5 g1 g2 w' = Some (true, w'))
  ∧ (blinker_h ≠ nm →
     ∃ cur' nxt' w',
       run_simulation 5 5 grid next_grid w = Some ((5000%nat, cur', nxt'), w')
       ∧ length (console w') = (length (console w) + 3 * 5000 + 2)%nat).
Proof.
  intros Hw. split; [done|]. split; [done|]. split; [|split; [|split]].
  - destruct (create_next_grid_holds 5 5 _ _ _ _ _ ltac:(lia) Hw)
      as (w1 & Hrun1 & Hw1 & _ & _).
    destruct (create_next_grid_holds 5 5 _ _ _ _ _ ltac:(lia) Hw1)
      as (w2 & Hrun2 & Hw2 & _ & _).
    exists w1, w2. destruct Hw1 as (Hn1 & _). destruct Hw2 as (Hg2 & _).
    by rewrite next_blinker_h in Hn1, Hg2.
  - apply blinker_never_stable.
  - intros n g1 g2 w' H1 H2.
    assert (∀ m, shape 5 5 (generation_at blinker_h m)) as Hshape.
    { intros m. apply shape_generation_at. compute_done. }
    rewrite (grid_changing_value 5 5 g1 g2 w' _ _ H1 H2 (Hshape _) (Hshape _)).
    rewrite bool_decide_eq_false_2; [done|].
    intros Heq. by apply (blinker_never_stable n).
  - intros Hne.
    destruct (run_simulation_value 5 5 _ _ _ _ _ ltac:(lia) Hw)
      as (w' & Hrun & Hcon & _ & _).
    assert (advances (seq 1 generations) blinker_h nm = generations) as Hk.
    { rewrite advances_never_stable;
        [apply length_seq|done|apply blinker_never_stable]. }
    rewrite Hk in Hrun, Hcon.
    change (exit_gen 1 generations 1 generations) with 5000%nat in Hrun.
    eexists _, _, w'. split; [exact Hrun|].
    rewrite Hcon, !length_app, length_frames.
    change generations with 5000%nat. cbn [length]. lia.
Qed.

Lemma blinker_oscillates_witness :
  ∃ w1 w2,
    create_next_grid 5 5 (first_grid blinker_h) (second_grid blinker_h blinker_h)
      (world_of blinker_h blinker_h) = Some (tt, w1)
    ∧ contents (heap w1) (second_grid blinker_h blinker_h) = Some blinker_v
    ∧ create_next_grid 5 5 (second_grid blinker_h blinker_h) (first_grid blinker_h)
        w1 = Some (tt, w2)
    ∧ contents (heap w2) (first_grid blinker_h) = Some blinker_h.
Proof.
  apply (blinker_oscillates (first_grid blinker_h)
           (second_grid blinker_h blinker_h) (world_of blinker_h blinker_h)
           blinker_h).
  compute_done.
Defined.

(** *** The stability test of the loop *)

(** One pass through the body of the loop. *)
Lemma generation_loop_iteration rows cols g gens gen cur nxt w cm nm :
  (0 < rows)%nat → holds rows cols w cur nxt cm nm →
  (cm = nm →
   generation_loop rows cols (g :: gens) gen cur nxt w = Some ((g, cur, nxt), w))
  ∧ (cm ≠ nm →
     ∃ w',
       holds rows cols w' nxt cur (next_matrix cm) cm
       ∧ console w' = console w ++ [ClearConsole; Output (render cm g); Sleep]
       ∧ generation_loop rows cols (g :: gens) gen cur nxt w
         = generation_loop rows cols gens g nxt cur w').
Proof.
  intros Hrows Hw. pose proof Hw as (Hc & Hn & Sc & Sn & Hsep).
  cbn [generation_loop].
  rewrite (bind_some _ _ _ _ _
             (grid_changing_value rows cols cur nxt w cm nm Hc Hn Sc Sn)).
  split; intros Heq.
  - by rewrite bool_decide_eq_true_2.
  - rewrite bool_decide_eq_false_2 by done. cbn [negb].
    erewrite bind_some; [|by eapply print_grid_value].
    erewrite bind_some;
      [|by eapply (create_next_grid_value rows cols cur nxt _ cm nm)].
    erewrite bind_some; [|reflexivity].
    cbn [heap console]. eexists. split; [|split; [|reflexivity]].
    + by apply (holds_step rows cols w cur nxt cm nm).
    + cbn [console]. by rewrite <- app_assoc.
Qed.

Lemma seq_generations : seq 1 generations = 1%nat :: 2%nat :: seq 3 4998.
Proof. reflexivity. Qed.

(** C3, as the code has it.  The test that decides whether the loop stops
    compares the current grid with the content of the other buffer: the
    loop stops, without advancing, exactly when the two hold the same
    values; otherwise it renders the current grid, writes its successor into
    the other buffer and swaps, so that the next test compares that
    successor with the grid it came from.  A still life whose next buffer
    starts with other values is therefore rendered once as generation 1 and
    the loop is left at the second iteration. *)
Theorem stability_test_reads_other_buffer rows cols g gens gen cur nxt w cm nm :
  (0 < rows)%nat → holds rows cols w cur nxt cm nm →
  (cm = nm →
   generation_loop rows cols (g :: gens) gen cur nxt w = Some ((g, cur, nxt), w))
  ∧ (cm ≠ nm →
     ∃ w',
       holds rows cols w' nxt cur (next_matrix cm) cm
       ∧ console w' = console w ++ [ClearConsole; Output (render cm g); Sleep]
       ∧ generation_loop rows cols (g :: gens) gen cur nxt w
         = generation_loop rows cols gens g nxt cur w')
  ∧ (cm ≠ nm → next_matrix cm = cm →
     ∃ w',
       run_simulation rows cols cur nxt w = Some ((2%nat, nxt, cur), w')
       ∧ console w'
         = console w ++ [ClearConsole; Output (render cm 1); Sleep;
                         ClearConsole; Output (render cm 2)]).
Proof.
  intros Hrows Hw.
  destruct (generation_loop_iteration rows cols g gens gen cur nxt w cm nm Hrows Hw)
    as [Hstop Hgo].
  split; [done|]. split; [done|]. intros Hne Hfix.
  destruct (run_simulation_value _ _ _ _ _ _ _ Hrows Hw)
    as (w' & Hrun & Hcon & _ & _).
  rewrite seq_generations, (advances_still_life _ _ _ _ _ Hne Hfix) in Hrun, Hcon.
  exists w'. split; [exact Hrun|]. rewrite Hcon.
  change (generation_at cm 1) with (next_matrix cm).
  change (exit_gen 1 generations 1 1) with 2%nat.
  cbn [frames]. by rewrite Hfix.
Qed.

Lemma stability_test_reads_other_buffer_witness :
  ∃ w',
    run_simulation 10 10 (first_grid block) (second_grid block lone_cell)
      (world_of block lone_cell)
    = Some ((2%nat, second_grid block lone_cell, first_grid block), w')
    ∧ console w'
      = console (world_of block lone_cell)
          ++ [ClearConsole; Output (render block 1); Sleep;
              ClearConsole; Output (render block 2)].
Proof.
  apply (stability_test_reads_other_buffer 10 10 1 [] 1 _ _ _ block lone_cell);
    [lia|compute_done|compute_done|reflexivity].
Defined.

(** C3, as stated, fails.  The block is its own successor, so a test against
    a freshly computed next generation would report no change at once; the
    first test of the loop reads the initial next buffer instead, reports a
    change, and the loop goes on to generation 2. *)
Lemma block_not_stable_at_first_test :
  next_matrix block = block
  ∧ grid_changing 10 10 (first_grid block) (second_grid block lone_cell)
      (world_of block lone_cell)
    = Some (true, world_of block lone_cell)
  ∧ ¬ (∃ cur' nxt' w',
         run_simulation 10 10 (first_grid block) (second_grid block lone_cell)
           (world_of block lone_cell) = Some ((1%nat, cur', nxt'), w')).
Proof.
  split; [reflexivity|]. split; [reflexivity|].
  intros (cur' & nxt' & w' & Hrun). vm_compute in Hrun. discriminate.
Qed.

(** *** The initial content of the next buffer *)

Lemma advances_first_test g gens cm n1 n2 :
  (cm = n1 ↔ cm = n2) →
  advances (g :: gens) cm n1 = advances (g :: gens) cm n2
  ∧ behind cm n1 (advances (g :: gens) cm n1)
    = behind cm n2 (advances (g :: gens) cm n2).
Proof.
  intros Hiff. rewrite !advances_cons.
  destruct (decide (cm = n1)) as [H1|H1].
  - pose proof (proj1 Hiff H1) as H2.
    rewrite !bool_decide_eq_true_2 by done. cbn. split; [done|congruence].
  - assert (cm ≠ n2) as H2 by (intros H; apply H1; by apply Hiff).
    by rewrite !bool_decide_eq_false_2.
Qed.

(** C4, as the code has it.  The first stability test reads the next
    buffer before anything is written to it, so its initial content matters
    through the outcome of that test and no further: two runs from the same
    current grid, whose next buffers either both equal the current grid or
    both differ from it, return the same counter and buffers, print the
    same console and leave the same values in both buffers. *)
Theorem next_buffer_read_by_first_test rows cols cur nxt w1 w2 cm n1 n2 :
  (0 < rows)%nat →
  holds rows cols w1 cur nxt cm n1 → holds rows cols w2 cur nxt cm n2 →
  console w1 = console w2 → (cm = n1 ↔ cm = n2) →
  ∃ r w1' w2' cm' nm',
    run_simulation rows cols cur nxt w1 = Some (r, w1')
    ∧ run_simulation rows cols cur nxt w2 = Some (r, w2')
    ∧ console w1' = console w2'
    ∧ holds rows cols w1' r.1.2 r.2 cm' nm'
    ∧ holds rows cols w2' r.1.2 r.2 cm' nm'.
Proof.
  intros Hrows Hw1 Hw2 Hcon Hiff.
  destruct (run_simulation_value _ _ _ _ _ _ _ Hrows Hw1)
    as (w1' & Hrun1 & Hcon1 & Hh1 & _).
  destruct (run_simulation_value _ _ _ _ _ _ _ Hrows Hw2)
    as (w2' & Hrun2 & Hcon2 & Hh2 & _).
  rewrite seq_generations in *.
  destruct (advances_first_test 1 (2%nat :: seq 3 4998) cm n1 n2 Hiff)
    as [Hk Hb].
  rewrite <- Hb in Hh2. rewrite <- Hk in Hrun2, Hcon2, Hh2.
  eexists _, w1', w2', _, _.
  split; [exact Hrun1|]. split; [exact Hrun2|].
  split; [by rewrite Hcon1, Hcon2, Hcon|]. split; [exact Hh1|exact Hh2].
Qed.

Lemma next_buffer_read_by_first_test_witness :
  ∃ r w1' w2' cm' nm',
    run_simulation 10 10 (first_grid block) (second_grid block lone_cell)
      (world_of block lone_cell) = Some (r, w1')
    ∧ run_simulation 10 10 (first_grid block) (second_grid block lone_cell)
        (world_of block (zeros 10 10)) = Some (r, w2')
    ∧ console w1' = console w2'
    ∧ holds 10 10 w1' r.1.2 r.2 cm' nm'
    ∧ holds 10 10 w2' r.1.2 r.2 cm' nm'.
Proof.
  apply (next_buffer_read_by_first_test 10 10 _ _ _ _ block lone_cell (zeros 10 10));
    [lia|compute_done|compute_done|reflexivity|].
  split; intros H; vm_compute in H; discriminate.
Defined.

(** C4, as stated, fails.  From the block as current grid, a next buffer
    that starts as a copy of the block ends the run at generation 1 with a
    single rendering, and a next buffer that starts with a lone cell ends it
    at generation 2 with two. *)
Lemma next_buffer_content_changes_run :
  second_grid block block = second_grid block lone_cell
  ∧ outcome (run_simulation 10 10 (first_grid block) (second_grid block block)
               (world_of block block))
    = Some (1%nat, [ClearConsole; Output (render block 1)])
  ∧ outcome (run_simulation 10 10 (first_grid block) (second_grid block lone_cell)
               (world_of block lone_cell))
    = Some (2%nat, [ClearConsole; Output (render block 1); Sleep;
                    ClearConsole; Output (render block 2)]).
Proof. split; [reflexivity|]. split; vm_compute; reflexivity. Qed.

(** *** Further properties of the step and of the loop *)

(** X1. A stability test made right after the step, on the same two grids,
    answers [False] exactly when the grid is a still life. *)
Theorem test_after_step_finds_still_life rows cols grid next_grid w gm nm :
  (0 < rows)%nat → holds rows cols w grid next_grid gm nm →
  ∃ w1 b,
    create_next_grid rows cols grid next_grid w = Some (tt, w1)
    ∧ grid_changing rows cols grid next_grid w1 = Some (b, w1)
    ∧ (b = false ↔ next_matrix gm = gm).
Proof.
  intros Hrows Hw.
  destruct (create_next_grid_holds _ _ _ _ _ _ _ Hrows Hw)
    as (w1 & Hrun & (Hn1 & Hg1 & Sn1 & Sg1 & _) & _ & _).
  exists w1, (negb (bool_decide (gm = next_matrix gm))).
  split; [done|]. split; [by apply grid_changing_value|].
  rewrite negb_false_iff, bool_decide_eq_true. split; congruence.
Qed.

Lemma test_after_step_finds_still_life_witness :
  ∃ w1 b,
    create_next_grid 10 10 (first_grid block) (second_grid block lone_cell)
      (world_of block lone_cell) = Some (tt, w1)
    ∧ grid_changing 10 10 (first_grid block) (second_grid block lone_cell) w1
      = Some (b, w1)
    ∧ (b = false ↔ next_matrix block = block).
Proof.
  apply (test_after_step_finds_still_life 10 10 _ _ _ block lone_cell);
    [lia|compute_done].
Defined.

Lemma advances_exit gens cm nm :
  (advances gens cm nm < length gens)%nat →
  generation_at cm (advances gens cm nm) = behind cm nm (advances gens cm nm).
Proof.
  revert cm nm. induction gens as [|g gens IH]; intros cm nm Hk.
  - cbn in Hk. lia.
  - rewrite advances_cons in *. case_bool_decide as Heq; [by cbn|].
    cbn [length] in Hk. apply Nat.succ_lt_mono in Hk.
    specialize (IH _ _ Hk). rewrite generation_at_succ_r in IH.
    rewrite IH. cbn [behind].
    destruct (advances gens (next_matrix cm) cm) as [|k'] eqn:Ek; [done|].
    cbn [behind]. apply generation_at_succ_r.
Qed.

(** X2. A run that is left before the cap is left with both buffers
    holding the same grid; when it advanced at least once, that grid is a
    still life. *)
Theorem early_exit_is_still_life rows cols cur nxt w cm nm :
  (0 < rows)%nat → holds rows cols w cur nxt cm nm →
  ∃ r w' fm,
    run_simulation rows cols cur nxt w = Some (r, w')
    ∧ contents (heap w') r.1.2 = Some fm
    ∧ ((r.1.1 < 5000)%nat →
       contents (heap w') r.2 = Some fm
       ∧ ((2 ≤ r.1.1)%nat → next_matrix fm = fm)).
Proof.
  intros Hrows Hw.
  destruct (run_simulation_value _ _ _ _ _ _ _ Hrows Hw)
    as (w' & Hrun & _ & (Hc & Hn & _) & _).
  assert (advances (seq 1 generations) cm nm ≤ generations)%nat as Hk.
  { etrans; [apply advances_le|]. by rewrite length_seq. }
  assert (advances (seq 1 generations) cm nm < generations →
          generation_at cm (advances (seq 1 generations) cm nm)
          = behind cm nm (advances (seq 1 generations) cm nm))%nat as Hexit.
  { intros Hk'. apply advances_exit. by rewrite length_seq. }
  assert (0 < generations)%nat as Hpos by (unfold generations; lia).
  pose proof (exit_gen_cases 1 generations 1 _ Hpos Hk) as Hcases.
  assert (generations = 5000%nat) as Hcap by done.
  revert Hrun Hc Hn Hk Hexit Hcases.
  generalize (advances (seq 1 generations) cm nm). intros k.
  generalize (exit_gen 1 generations 1 k). intros g.
  rewrite Hcap. clear Hcap Hpos. intros Hrun Hc Hn Hk Hexit Hcases.
  eexists _, w', (generation_at cm k). split; [exact Hrun|].
  cbn [fst snd]. split; [done|]. intros Hlt.
  destruct Hcases as [[Hk' ->]|[Hk' ->]]; [|lia].
  specialize (Hexit Hk'). split; [by rewrite Hexit|].
  intros Hge. destruct k as [|k']; [lia|]. cbn [behind] in Hexit.
  rewrite Hexit. exact Hexit.
Qed.

Lemma early_exit_is_still_life_witness :
  ∃ r w' fm,
    run_simulation 10 10 (first_grid block) (second_grid block lone_cell)
      (world_of block lone_cell) = Some (r, w')
    ∧ contents (heap w') r.1.2 = Some fm
    ∧ ((r.1.1 < 5000)%nat →
       contents (heap w') r.2 = Some fm
       ∧ ((2 ≤ r.1.1)%nat → next_matrix fm = fm)).
Proof.
  apply (early_exit_is_still_life 10 10 _ _ _ block lone_cell);
    [lia|compute_done].
Defined.

Lemma frames_snoc cm gen k :
  frames cm gen (S k)
  = frames cm gen k
      ++ [ClearConsole; Output (render (generation_at cm k) (gen + k)); Sleep].
Proof.
  revert cm gen. induction k as [|k IH]; intros cm gen.
  - cbn. by rewrite Nat.add_0_r.
  - change (frames cm gen (S (S k)))
      with (ClearConsole :: Output (render cm gen) :: Sleep
              :: frames (next_matrix cm) (S gen) (S k)).
    rewrite IH, generation_at_succ_r. cbn [frames app].
    by replace (S gen + k)%nat with (gen + S k)%nat by lia.
Qed.

(** X3. When no stability test succeeds, the run shows 5001 grids but
    numbers the last two alike: the grid rendered after the loop is the
    successor of the one rendered in iteration 5000, and both carry the
    generation number 5000. *)
Theorem cap_numbers_two_grids_5000 rows cols cur nxt w cm nm :
  (0 < rows)%nat → holds rows cols w cur nxt cm nm → cm ≠ nm →
  (∀ n, generation_at cm (S n) ≠ generation_at cm n) →
  ∃ r w' shown,
    run_simulation rows cols cur nxt w = Some (r, w')
    ∧ r.1.1 = 5000%nat
    ∧ console w'
      = console w ++ shown
          ++ [ClearConsole; Output (render (generation_at cm 4999) 5000); Sleep;
              ClearConsole;
              Output (render (generation_at cm 5000) 5000)]
    ∧ generation_at cm 5000 ≠ generation_at cm 4999.
Proof.
  intros Hrows Hw Hne Hosc.
  destruct (run_simulation_value _ _ _ _ _ _ _ Hrows Hw)
    as (w' & Hrun & Hcon & _ & _).
  assert (advances (seq 1 generations) cm nm = generations) as Hk.
  { rewrite advances_never_stable; [apply length_seq|done..]. }
  rewrite Hk in Hrun, Hcon.
  change (exit_gen 1 generations 1 generations) with 5000%nat in Hrun, Hcon.
  change generations with (S 4999) in Hcon. rewrite frames_snoc in Hcon.
  eexists _, w', (frames cm 1 4999). split; [exact Hrun|]. split; [done|].
  split; [|exact (Hosc 4999%nat)].
  rewrite Hcon, <- !app_assoc. reflexivity.
Qed.

Lemma cap_numbers_two_grids_5000_witness :
  ∃ r w' shown,
    run_simulation 5 5 (first_grid blinker_h) (second_grid blinker_h blinker_v)
      (world_of blinker_h blinker_v) = Some (r, w')
    ∧ r.1.1 = 5000%nat
    ∧ console w'
      = console (world_of blinker_h blinker_v) ++ shown
          ++ [ClearConsole;
              Output (render (generation_at blinker_h 4999) 5000); Sleep;
              ClearConsole;
              Output (render (generation_at blinker_h 5000) 5000)]
    ∧ generation_at blinker_h 5000 ≠ generation_at blinker_h 4999.
Proof.
  apply (cap_numbers_two_grids_5000 5 5 _ _ _ blinker_h blinker_v);
    [lia|compute_done|compute_done|apply blinker_never_stable].
Defined.

(** X4. A run works on the two buffers it was given and on nothing else:
    it returns them, in one order or the other, creates and drops no row
    object, leaves every other row as it was and only adds to the
    console. *)
Theorem run_keeps_two_buffers rows cols cur nxt w cm nm :
  (0 < rows)%nat → holds rows cols w cur nxt cm nm →
  ∃ r w' shown,
    run_simulation rows cols cur nxt w = Some (r, w')
    ∧ ((r.1.2 = cur ∧ r.2 = nxt) ∨ (r.1.2 = nxt ∧ r.2 = cur))
    ∧ (∀ l, l ∉ cur → l ∉ nxt → heap w' !! l = heap w !! l)
    ∧ (∀ l, is_Some (heap w' !! l) ↔ is_Some (heap w !! l))
    ∧ console w' = console w ++ shown.
Proof.
  intros Hrows Hw.
  destruct (run_simulation_value _ _ _ _ _ _ _ Hrows Hw)
    as (w' & Hrun & Hcon & Hw' & Hfr).
  revert Hrun Hcon Hw'.
  generalize (advances (seq 1 generations) cm nm). intros k.
  generalize (exit_gen 1 generations 1 k). intros g.
  generalize (generation_at cm k) (behind cm nm k). intros fm bm.
  intros Hrun Hcon (Hc' & Hn' & _).
  assert (∀ g0 m l, contents (heap w') g0 = Some m → l ∈ g0 →
            is_Some (heap w' !! l)) as Hin'.
  { intros g0 m l Hg0 Hl. apply contents_Forall2 in Hg0.
    apply list_elem_of_lookup in Hl as [i Hi].
    destruct (Forall2_lookup_l _ _ _ _ _ Hg0 Hi) as (row & _ & Hrow). eauto. }
  assert (∀ g0 m l, contents (heap w) g0 = Some m → l ∈ g0 →
            is_Some (heap w !! l)) as Hin.
  { intros g0 m l Hg0 Hl. apply contents_Forall2 in Hg0.
    apply list_elem_of_lookup in Hl as [i Hi].
    destruct (Forall2_lookup_l _ _ _ _ _ Hg0 Hi) as (row & _ & Hrow). eauto. }
  destruct Hw as (Hc & Hn & _).
  eexists _, w', _. split; [exact Hrun|]. cbn [fst snd].
  assert ((after_swaps k cur nxt).1 = cur ∧ (after_swaps k cur nxt).2 = nxt
          ∨ (after_swaps k cur nxt).1 = nxt ∧ (after_swaps k cur nxt).2 = cur)
    as Hswap.
  { unfold after_swaps. destruct (Nat.even k); [by left|by right]. }
  split; [exact Hswap|]. split; [exact Hfr|]. split; [|exact Hcon].
  intros l. destruct (decide (l ∈ cur)) as [Hlc|Hlc].
  { split; intros _; [by eapply (Hin cur)|].
    destruct Hswap as [[E1 E2]|[E1 E2]]; rewrite E1, E2 in *;
      [by eapply (Hin' cur)|by eapply (Hin' cur)]. }
  destruct (decide (l ∈ nxt)) as [Hln|Hln].
  { split; intros _; [by eapply (Hin nxt)|].
    destruct Hswap as [[E1 E2]|[E1 E2]]; rewrite E1, E2 in *;
      [by eapply (Hin' nxt)|by eapply (Hin' nxt)]. }
  by rewrite Hfr.
Qed.

Lemma run_keeps_two_buffers_witness :
  ∃ r w' shown,
    run_simulation 10 10 (first_grid block) (second_grid block lone_cell)
      (world_of block lone_cell) = Some (r, w')
    ∧ ((r.1.2 = first_grid block ∧ r.2 = second_grid block lone_cell)
       ∨ (r.1.2 = second_grid block lone_cell ∧ r.2 = first_grid block))
    ∧ (∀ l, l ∉ first_grid block → l ∉ second_grid block lone_cell →
         heap w' !! l = heap (world_of block lone_cell) !! l)
    ∧ (∀ l, is_Some (heap w' !! l)
            ↔ is_Some (heap (world_of block lone_cell) !! l))
    ∧ console w' = console (world_of block lone_cell) ++ shown.
Proof.
  apply (run_keeps_two_buffers 10 10 _ _ _ block lone_cell);
    [lia|compute_done].
Defined.

(** *** [create_initial_grid] *)

Lemma random_row_length draws pos n : length (random_row draws pos n) = n.
Proof.
  revert pos. induction n as [|n IH]; intros pos; [done|].
  cbn. by rewrite IH.
Qed.

Lemma random_row_lookup draws pos n i :
  (i < n)%nat →
  random_row draws pos n !! i
  = Some (if draws (pos + i)%nat =? 0 then 1 else 0).
Proof.
  revert pos i. induction n as [|n IH]; intros pos i Hi; [lia|].
  destruct i as [|i]; cbn.
  - by rewrite Nat.add_0_r.
  - rewrite IH by lia. by replace (S pos + i)%nat with (pos + S i)%nat by lia.
Qed.

Lemma random_matrix_shape draws pos rows cols :
  shape rows cols (random_matrix draws pos rows cols).
Proof.
  revert pos. induction rows as [|rows IH]; intros pos.
  - by split.
  - destruct (IH (pos + cols)%nat) as [Hl HF]. split; cbn.
    + by rewrite Hl.
    + constructor; [apply random_row_length|done].
Qed.

Lemma random_matrix_get draws pos rows cols r c :
  (r < rows)%nat → (c < cols)%nat →
  get (random_matrix draws pos rows cols) r c
  = Some (if draws (pos + r * cols + c)%nat =? 0 then 1 else 0).
Proof.
  revert pos r. induction rows as [|rows IH]; intros pos r Hr Hc; [lia|].
  destruct r as [|r]; cbn [random_matrix].
  - unfold get. cbn. rewrite random_row_lookup by done.
    by rewrite Nat.add_0_r.
  - unfold get in *. cbn [lookup list_lookup]. rewrite IH by lia.
    by replace (pos + cols + r * cols + c)%nat
         with (pos + S r * cols + c)%nat by lia.
Qed.

Lemma random_matrix_binary draws pos rows cols :
  binary (random_matrix draws pos rows cols).
Proof.
  apply Forall_lookup. intros r row Hrow. apply Forall_lookup. intros c v Hv.
  pose proof (random_matrix_shape draws pos rows cols) as Sm.
  pose proof (lookup_lt_Some _ _ _ Hrow) as Hr.
  pose proof (lookup_lt_Some _ _ _ Hv) as Hc.
  rewrite (shape_row _ _ _ _ _ Sm Hrow) in Hc. destruct Sm as [Hl _].
  rewrite Hl in Hr.
  pose proof (random_matrix_get draws pos rows cols r c Hr Hc) as Hg.
  unfold get in Hg. rewrite Hrow in Hg. cbn in Hg. rewrite Hv in Hg.
  injection Hg as ->. destruct (_ =? 0); [by right|by left].
Qed.

(** The inner loop fills the row object [l]. *)
Lemma initial_cols draws l :
  ∀ n col0 pos w row,
    heap w !! l = Some row →
    for_fold (seq col0 n) (λ col pos,
        (if draws pos =? 0 then extend l 1 else extend l 0)
        ≫= λ _, mret (S pos)) pos w
    = Some ((pos + n)%nat,
            World (<[l := row ++ random_row draws pos n]> (heap w)) (console w)).
Proof.
  induction n as [|n IH]; intros col0 pos w row Hl.
  - cbn. rewrite ret_eq, app_nil_r, Nat.add_0_r, insert_id by done.
    by rewrite world_eta.
  - cbn [seq for_fold random_row].
    set (v := if draws pos =? 0 then 1 else 0).
    erewrite bind_some; last first.
    { erewrite (bind_some _ _ _ _ (World (<[l := row ++ [v]]> (heap w)) (console w)));
        [apply ret_eq|].
      unfold v. destruct (draws pos =? 0); unfold extend; by rewrite Hl. }
    erewrite IH; last by (cbn [heap]; apply lookup_insert_eq).
    cbn [heap console]. rewrite insert_insert_eq, <- app_assoc.
    by replace (S pos + n)%nat with (pos + S n)%nat by lia.
Qed.

(** The outer loop: the rows it creates, and what it leaves alone. *)
Lemma initial_rows draws cols :
  ∀ n row0 grid pos w,
    ∃ new w',
      for_fold (seq row0 n) (λ row '(grid, pos),
          alloc [] ≫= λ grid_rows,
          for_fold (range cols) (λ col pos,
              (if draws pos =? 0 then extend grid_rows 1 else extend grid_rows 0)
              ≫= λ _, mret (S pos))
            pos ≫= λ pos,
          mret (grid ++ [grid_rows], pos))
        (grid, pos) w
      = Some ((grid ++ new, (pos + n * cols)%nat), w')
      ∧ contents (heap w') new = Some (random_matrix draws pos n cols)
      ∧ NoDup new
      ∧ (∀ l, l ∈ new → heap w !! l = None)
      ∧ (∀ l, is_Some (heap w !! l) → heap w' !! l = heap w !! l)
      ∧ console w' = console w.
Proof.
  induction n as [|n IH]; intros row0 grid pos w.
  - exists [], w. cbn. rewrite ret_eq, app_nil_r, Nat.add_0_r.
    split_and!; try done. { constructor. } intros l Hl. by apply elem_of_nil in Hl.
  - set (l := fresh (dom (heap w))).
    assert (heap w !! l = None) as Hfresh.
    { apply not_elem_of_dom. apply is_fresh. }
    set (row := random_row draws pos cols).
    set (w2 := World (<[l := row]> (heap w)) (console w)).
    destruct (IH (S row0) (grid ++ [l]) (pos + cols)%nat w2)
      as (new & w' & Hrun & Hcont & Hnd & Hnew & Hold & Hcon).
    exists (l :: new), w'.
    assert (heap w' !! l = Some row) as Hl'.
    { rewrite Hold; unfold w2; cbn [heap]; by rewrite lookup_insert_eq. }
    assert (l ∉ new) as Hln.
    { intros Hin. specialize (Hnew _ Hin). unfold w2 in Hnew. cbn [heap] in Hnew.
      by rewrite lookup_insert_eq in Hnew. }
    split_and!.
    + cbn [seq for_fold].
      erewrite bind_some; last first.
      { erewrite (bind_some _ _ _ _ (World (<[l := []]> (heap w)) (console w)));
          [|reflexivity].
        erewrite bind_some; last first.
        { apply (initial_cols draws l cols 0%nat pos _ []).
          cbn [heap]. apply lookup_insert_eq. }
        cbn [heap console app]. rewrite insert_insert_eq. apply ret_eq. }
      etrans; [exact Hrun|]. rewrite <- app_assoc. cbn [app].
      by replace (pos + cols + n * cols)%nat with (pos + S n * cols)%nat by lia.
    + cbn [random_matrix]. apply contents_Forall2. constructor; [done|].
      by apply contents_Forall2.
    + by constructor.
    + intros l0 [->|Hin]%elem_of_cons; [done|].
      specialize (Hnew _ Hin). unfold w2 in Hnew. cbn [heap] in Hnew.
      apply lookup_insert_None in Hnew. tauto.
    + intros l0 Hl0. rewrite Hold; unfold w2; cbn [heap].
      * apply lookup_insert_ne. intros ->. rewrite Hfresh in Hl0.
        by destruct Hl0.
      * rewrite lookup_insert_ne; [done|]. intros ->. rewrite Hfresh in Hl0.
        by destruct Hl0.
    + by rewrite Hcon.
Qed.

(** X5. [create_initial_grid] always returns; the grid it builds draws one
    random number per cell, row by row: it has [rows] rows of [cols] cells,
    the cell at [(r, c)] is alive exactly when the draw number
    [r * cols + c] is 0, and so every cell is 0 or 1.  The console is not
    written. *)
Theorem create_initial_grid_cells rows cols draws pos w :
  ∃ grid w' m,
    create_initial_grid rows cols draws pos w
    = Some ((grid, (pos + rows * cols)%nat), w')
    ∧ contents (heap w') grid = Some m
    ∧ shape rows cols m ∧ binary m
    ∧ (∀ r c, (r < rows)%nat → (c < cols)%nat →
         get m r c
         = Some (if draws (pos + r * cols + c)%nat =? 0 then 1 else 0))
    ∧ console w' = console w.
Proof.
  destruct (initial_rows draws cols rows 0%nat [] pos w)
    as (new & w' & Hrun & Hcont & _ & _ & _ & Hcon).
  exists new, w', (random_matrix draws pos rows cols).
  split; [exact Hrun|]. split; [done|].
  split; [apply random_matrix_shape|]. split; [apply random_matrix_binary|].
  split; [|done]. intros r c Hr Hc. by apply random_matrix_get.
Qed.

(** X6. [create_initial_grid] builds its grid out of new row objects only:
    a grid that was held before is still held, unchanged, and shares no
    row with the new one, so that the two make the pair of buffers the
    generation loop expects. *)
Theorem create_initial_grid_fresh rows cols draws pos w cur cm :
  contents (heap w) cur = Some cm → shape rows cols cm → NoDup cur →
  ∃ grid w' m,
    create_initial_grid rows cols draws pos w
    = Some ((grid, (pos + rows * cols)%nat), w')
    ∧ (∀ l, l ∈ grid → heap w !! l = None)
    ∧ (∀ l, is_Some (heap w !! l) → heap w' !! l = heap w !! l)
    ∧ holds rows cols w' cur grid cm m.
Proof.
  intros Hc Sc Hndc.
  destruct (initial_rows draws cols rows 0%nat [] pos w)
    as (new & w' & Hrun & Hcont & Hnd & Hnew & Hold & Hcon).
  exists new, w', (random_matrix draws pos rows cols).
  split; [exact Hrun|]. split; [done|]. split; [done|].
  assert (∀ l, l ∈ cur → is_Some (heap w !! l)) as Hcur.
  { intros l Hl. apply contents_Forall2 in Hc.
    apply list_elem_of_lookup in Hl as [i Hi].
    destruct (Forall2_lookup_l _ _ _ _ _ Hc Hi) as (row & _ & Hrow). eauto. }
  unfold holds. split_and!.
  - rewrite <- Hc. apply contents_agree. intros l Hl. by apply Hold, Hcur.
  - done.
  - done.
  - apply random_matrix_shape.
  - unfold separate. apply NoDup_app. split_and!; [done| |done].
    intros l Hl Hin. apply Hcur in Hl as [row Hrow].
    rewrite (Hnew _ Hin) in Hrow. done.
Qed.

Lemma create_initial_grid_fresh_witness :
  ∃ grid w' m,
    create_initial_grid 10 10 (λ n, Z.of_nat n mod 8) 0 (world_of block [])
    = Some ((grid, (0 + 10 * 10)%nat), w')
    ∧ (∀ l, l ∈ grid → heap (world_of block []) !! l = None)
    ∧ (∀ l, is_Some (heap (world_of block []) !! l) →
         heap w' !! l = heap (world_of block []) !! l)
    ∧ holds 10 10 w' (first_grid block) grid block m.
Proof.
  apply (create_initial_grid_fresh 10 10 _ 0 _ (first_grid block) block);
    [reflexivity|compute_done|compute_done].
Defined.

(** *** The grid made from the image *)

Lemma binarize_pixel x :
  Uint8.add (Uint8.neg (Uint8.floordiv (if 127 <? x then 255 else 0) 255)) 1
  = if x <=? 127 then 1 else 0.
Proof.
  destruct (Z.ltb_spec 127 x), (Z.leb_spec x 127); try lia; reflexivity.
Qed.

Lemma binarize_lookup image r :
  binarize image !! r
  = map (λ x, if x <=? 127 then 1 else 0) <$> image !! r.
Proof.
  unfold binarize, threshold_binary. rewrite !list_lookup_fmap.
  destruct (image !! r) as [row|]; [|done]. cbn. f_equal.
  rewrite <- !list_fmap_compose. apply list_fmap_ext.
  intros i x _. cbn. apply binarize_pixel.
Qed.

(** X7. The grid made from the grey image has the size of the image, its
    cells are 0 or 1, and a cell is alive exactly where the pixel is at
    most 127: the dark pixels live. *)
Theorem binarize_dark_pixels_live image rows cols :
  shape rows cols image →
  shape rows cols (binarize image)
  ∧ binary (binarize image)
  ∧ ∀ r c,
      get (binarize image) r c
      = (λ x, if x <=? 127 then 1 else 0) <$> get image r c.
Proof.
  intros [Hl HF].
  assert (∀ r c,
            get (binarize image) r c
            = (λ x, if x <=? 127 then 1 else 0) <$> get image r c) as Hget.
  { intros r c. unfold get. rewrite binarize_lookup.
    destruct (image !! r) as [row|]; [|done]. cbn.
    by rewrite list_lookup_fmap. }
  split_and!; [| |done].
  - split.
    + unfold binarize, threshold_binary. by rewrite !length_map.
    + apply Forall_lookup. intros r row. rewrite binarize_lookup.
      destruct (image !! r) as [irow|] eqn:E; [|done]. cbn. intros [= <-].
      rewrite length_map. rewrite Forall_lookup in HF. by eapply HF.
  - apply Forall_lookup. intros r row. rewrite binarize_lookup.
    destruct (image !! r) as [irow|] eqn:E; [|done]. cbn. intros [= <-].
    apply Forall_fmap, Forall_true. intros x. cbn.
    destruct (x <=? 127); [by right|by left].
Qed.

Lemma binarize_dark_pixels_live_witness :
  shape 2 3 (binarize [[0; 127; 128]; [255; 60; 200]])
  ∧ binary (binarize [[0; 127; 128]; [255; 60; 200]])
  ∧ ∀ r c,
      get (binarize [[0; 127; 128]; [255; 60; 200]]) r c
      = (λ x, if x <=? 127 then 1 else 0)
          <$> get [[0; 127; 128]; [255; 60; 200]] r c.
Proof.
  apply (binarize_dark_pixels_live [[0; 127; 128]; [255; 60; 200]] 2 3).
  compute_done.
Defined.

(** *** Grids smaller than the loops expect *)

Lemma load_missing w g m r c :
  contents (heap w) g = Some m → get m r c = None → load g r c w = None.
Proof.
  intros Hc Hg. unfold load, get in *.
  pose proof (contents_length _ _ _ Hc) as Hlen.
  destruct (g !! r) as [l|] eqn:Hl; [|done].
  destruct (lookup_lt_is_Some_2 m r) as [row Hrow].
  { rewrite <- Hlen. by eapply lookup_lt_Some. }
  destruct (contents_row _ _ _ _ _ Hc Hrow) as (l' & Hl' & Hh).
  rewrite Hl in Hl'. injection Hl' as <-. rewrite Hh.
  rewrite Hrow in Hg. cbn in Hg. by rewrite Hg.
Qed.

Lemma for_return_None_inv {A R} (l : list A) (body : A → M (option R)) w w' :
  (∀ x w r w', body x w = Some (r, w') → w' = w) →
  for_return l body w = Some (None, w') →
  ∀ x, x ∈ l → body x w = Some (None, w).
Proof.
  intros Hpure. induction l as [|y l IH]; intros H x Hx.
  - by apply elem_of_nil in Hx.
  - cbn [for_return] in H. apply bind_inv in H as (o & w1 & H1 & H).
    pose proof (Hpure _ _ _ _ H1) as ->.
    destruct o as [v|]; [done|].
    apply elem_of_cons in Hx as [->|Hx]; [done|by apply IH].
Qed.

Lemma for_return_Some_inv {A R} (l : list A) (body : A → M (option R)) w v w' :
  for_return l body w = Some (Some v, w') →
  ∃ x w1 w2, x ∈ l ∧ body x w1 = Some (Some v, w2).
Proof.
  revert w. induction l as [|y l IH]; intros w H; [done|].
  cbn [for_return] in H. apply bind_inv in H as (o & w1 & H1 & H).
  destruct o as [v'|].
  - injection H as <- <-. exists y, w, w1. split; [left|done].
  - destruct (IH _ H) as (x & w2 & w3 & Hx & Hb).
    exists x, w2, w3. split; [by right|done].
Qed.

Lemma compare_cell_Some grid next_grid r c w v w' :
  compare_cell grid next_grid r c w = Some (Some v, w') → v = true.
Proof.
  unfold compare_cell. intros H.
  apply bind_inv in H as (x & w1 & _ & H).
  apply bind_inv in H as (y & w2 & _ & H).
  destruct (negb (x =? y)); by injection H.
Qed.

Lemma compare_cell_None grid next_grid r c w w' :
  compare_cell grid next_grid r c w = Some (None, w') →
  ∃ x, load grid r c w = Some (x, w) ∧ load next_grid r c w = Some (x, w).
Proof.
  unfold compare_cell. intros H.
  apply bind_inv in H as (x & w1 & H1 & H).
  pose proof (load_pure _ _ _ _ _ _ H1) as ->.
  apply bind_inv in H as (y & w2 & H2 & H).
  pose proof (load_pure _ _ _ _ _ _ H2) as ->.
  destruct (Z.eqb_spec x y) as [->|]; [|done]. by exists y.
Qed.

(** X8. Whatever the two grids are, [grid_changing] answers [False] only
    after it has read every cell of the [rows] x [cols] window of both and
    found each pair equal; it never does so on a grid that lacks a cell of
    the window. *)
Theorem grid_changing_false_reads_all rows cols grid next_grid w w' :
  grid_changing rows cols grid next_grid w = Some (false, w') →
  w' = w
  ∧ ∀ r c, (r < rows)%nat → (c < cols)%nat →
      ∃ x, load grid r c w = Some (x, w) ∧ load next_grid r c w = Some (x, w).
Proof.
  intros H. pose proof (grid_changing_pure _ _ _ _ _ _ _ H) as ->.
  split; [done|]. intros r c Hr Hc.
  unfold grid_changing in H. apply bind_inv in H as (o & w1 & H1 & H).
  injection H as Ho ->.
  destruct o as [v|].
  { cbn in Ho. subst v.
    apply for_return_Some_inv in H1 as (row & w1 & w2 & _ & H1).
    apply for_return_Some_inv in H1 as (col & w3 & w4 & _ & H1).
    by apply compare_cell_Some in H1. }
  assert (∀ (row : nat) w0 (o : option bool) w1,
            for_return (range cols)
              (λ col, compare_cell grid next_grid row col) w0 = Some (o, w1) →
            w1 = w0) as Hpure_row.
  { intros row w0 o w1. apply for_return_pure.
    intros col w2 o' w3. apply compare_cell_pure. }
  assert (for_return (range cols)
            (λ col, compare_cell grid next_grid r col) w = Some (None, w))
    as Hrow.
  { apply (for_return_None_inv _ _ _ _ Hpure_row H1).
    apply list_elem_of_In, in_seq. lia. }
  apply compare_cell_None with (w' := w).
  assert (∀ (col : nat) w0 (o : option bool) w1,
            compare_cell grid next_grid r col w0 = Some (o, w1) → w1 = w0)
    as Hpure_cell.
  { intros col w0 o w1. apply compare_cell_pure. }
  apply (for_return_None_inv _ _ _ _ Hpure_cell Hrow).
  apply list_elem_of_In, in_seq. lia.
Qed.

Lemma grid_changing_false_reads_all_witness :
  world_of block block = world_of block block
  ∧ ∀ r c, (r < 10)%nat → (c < 10)%nat →
      ∃ x, load (first_grid block) r c (world_of block block)
           = Some (x, world_of block block)
         ∧ load (second_grid block block) r c (world_of block block)
           = Some (x, world_of block block).
Proof.
  apply (grid_changing_false_reads_all 10 10 (first_grid block)
           (second_grid block block) (world_of block block)).
  vm_compute. reflexivity.
Defined.

Lemma for_fold_None {A S} (P : world → Prop) (l : list A)
    (body : A → S → M S) x :
  x ∈ l →
  (∀ s w, P w → body x s w = None) →
  (∀ y s w s' w', P w → body y s w = Some (s', w') → P w') →
  ∀ s w, P w → for_fold l body s w = None.
Proof.
  intros Hx Hfail Hkeep. induction l as [|y l IH]; intros s w Hw.
  - by apply elem_of_nil in Hx.
  - cbn [for_fold]. unfold mbind, M_bind.
    destruct (body y s w) as [[s' w1]|] eqn:Hy; [|done].
    apply elem_of_cons in Hx as [->|Hx]; [by rewrite Hfail in Hy|].
    apply IH; [done|]. by eapply Hkeep.
Qed.

Lemma for_fold_pure {A S} (l : list A) (body : A → S → M S) :
  (∀ x s w s' w', body x s w = Some (s', w') → w' = w) →
  ∀ s w s' w', for_fold l body s w = Some (s', w') → w' = w.
Proof.
  intros Hbody. induction l as [|x l IH]; intros s w s' w' H.
  - by injection H as _ <-.
  - cbn [for_fold] in H. apply bind_inv in H as (s1 & w1 & H1 & H).
    apply Hbody in H1 as ->. by eapply IH.
Qed.

Lemma append_cell_pure grid r c s w s' w' :
  append_cell grid r c s w = Some (s', w') → w' = w.
Proof.
  unfold append_cell. intros H. apply bind_inv in H as (x & w1 & H1 & H).
  apply load_pure in H1 as ->. destruct (x =? 0); by injection H as _ <-.
Qed.

Lemma print_grid_missing rows cols grid w m generation r c :
  contents (heap w) grid = Some m →
  (r < rows)%nat → (c < cols)%nat → get m r c = None →
  print_grid rows cols grid generation w = None.
Proof.
  intros Hc Hr Hcol Hg. unfold print_grid.
  erewrite bind_some; [|reflexivity].
  set (P := λ w0 : world, heap w0 = heap w).
  assert (∀ s w0, P w0 → append_cell grid r c s w0 = None) as Hcell.
  { intros s w0 Hw0. unfold append_cell, mbind, M_bind.
    rewrite (load_missing w0 grid m r c); [done| |done]. by rewrite Hw0. }
  assert (∀ row s w0 s' w',
            for_fold (range cols)
              (λ col output_str, append_cell grid row col output_str) s w0
            = Some (s', w') → w' = w0) as Hpure.
  { intros row s w0 s' w'. apply for_fold_pure.
    intros col s1 w2 s2 w3. apply append_cell_pure. }
  unfold mbind at 1, M_bind at 1.
  rewrite (for_fold_None P (range rows) _ r); [done| | | |done].
  - apply list_elem_of_In, in_seq. lia.
  - intros s w0 Hw0. unfold mbind, M_bind.
    rewrite (for_fold_None P (range cols) _ c); [done| |done| |done].
    + apply list_elem_of_In, in_seq. lia.
    + intros col s0 w2 s' w' Hw2 H. apply append_cell_pure in H. by subst.
  - intros row s w0 s' w' Hw0 H. apply bind_inv in H as (s1 & w2 & H1 & H).
    apply Hpure in H1 as ->. by injection H as _ <-.
Qed.

Lemma generation_loop_missing rows cols g gens gen cur nxt w cm r c :
  contents (heap w) cur = Some cm →
  (r < rows)%nat → (c < cols)%nat → get cm r c = None →
  generation_loop rows cols (g :: gens) gen cur nxt w = None.
Proof.
  intros Hc Hr Hcol Hg. cbn [generation_loop].
  unfold mbind at 1, M_bind at 1.
  destruct (grid_changing rows cols cur nxt w) as [[b w1]|] eqn:Hch; [|done].
  pose proof (grid_changing_pure _ _ _ _ _ _ _ Hch) as ->.
  destruct b; cbn [negb].
  - unfold mbind at 1, M_bind at 1.
    by rewrite (print_grid_missing rows cols cur w cm g r c).
  - apply grid_changing_false_reads_all in Hch as [_ Hall].
    destruct (Hall r c Hr Hcol) as (x & Hload & _).
    by rewrite (load_missing w cur cm r c Hc Hg) in Hload.
Qed.

(** X9. A current grid that lacks a cell of the [rows] x [cols] window
    makes the run raise, whatever the next grid is: the first stability
    test cannot answer [False], and when it answers [True] the rendering
    that follows reads the missing cell. *)
Theorem run_raises_on_small_grid rows cols cur nxt w cm r c :
  contents (heap w) cur = Some cm →
  (r < rows)%nat → (c < cols)%nat → get cm r c = None →
  run_simulation rows cols cur nxt w = None.
Proof.
  intros Hc Hr Hcol Hg. unfold run_simulation, range2.
  rewrite Nat.add_sub, seq_generations. unfold mbind at 1, M_bind at 1.
  by rewrite (generation_loop_missing rows cols _ _ _ cur nxt w cm r c).
Qed.

Lemma run_raises_on_small_grid_witness :
  run_simulation 10 12 (first_grid block) (second_grid block block)
    (world_of block block) = None.
Proof.
  apply (run_raises_on_small_grid 10 12 _ _ _ block 0 10);
    [reflexivity|lia|lia|reflexivity].
Defined.

Lemma sample_resizes : resizes sample.
Proof.
  intros src width height. unfold sample. cbn [fst snd]. split.
  - by rewrite length_map, length_seq.
  - apply Forall_fmap, Forall_true. intros r. cbn.
    by rewrite length_map, length_seq.
Qed.

(** X10. [run_game] hands [(rows, cols)] to [cv2.resize] as (width,
    height), so the grid of the first generation has [cols] rows of [rows]
    cells; unless [rows = cols] it lacks a cell of the [rows] x [cols]
    window and the run raises. *)
Theorem run_raises_unless_square resize rows cols image cur nxt w :
  resizes resize → (0 < rows)%nat → (0 < cols)%nat →
  contents (heap w) cur = Some (image_grid resize rows cols image) →
  shape cols rows (image_grid resize rows cols image)
  ∧ (rows ≠ cols → run_simulation rows cols cur nxt w = None).
Proof.
  intros Hres Hrows Hcols Hc.
  assert (shape cols rows (image_grid resize rows cols image)) as Sm.
  { unfold image_grid. by apply binarize_dark_pixels_live. }
  split; [done|]. intros Hne.
  destruct (decide (cols < rows)%nat) as [Hlt|Hge].
  - apply (run_raises_on_small_grid rows cols cur nxt w _ cols 0%nat Hc);
      [done|done|]. apply (get_outside _ _ _ Sm). lia.
  - apply (run_raises_on_small_grid rows cols cur nxt w _ 0%nat rows Hc);
      [done|lia|]. apply (get_outside _ _ _ Sm). lia.
Qed.

Lemma run_raises_unless_square_witness :
  shape 12 10 (image_grid sample 10 12 [[0; 200]; [200; 0]])
  ∧ (10%nat ≠ 12%nat →
     run_simulation 10 12
       (first_grid (image_grid sample 10 12 [[0; 200]; [200; 0]]))
       (second_grid (image_grid sample 10 12 [[0; 200]; [200; 0]])
          (zeros 10 12))
       (world_of (image_grid sample 10 12 [[0; 200]; [200; 0]]) (zeros 10 12))
     = None).
Proof.
  apply (run_raises_unless_square sample 10 12 [[0; 200]; [200; 0]]);
    [apply sample_resizes|lia|lia|reflexivity].
Defined.

(** *** [get_integer_value] *)



(** X12. [get_integer_value] raises, at the end of the input, exactly when
    every line of the input is refused; so it never returns when [high] is
    below [low]. *)
Theorem get_integer_value_raises_iff int prompt low high stdin stdout :
  (Prompts.get_integer_value int prompt low high stdin stdout = None
   ↔ Forall (Prompts.refused int low high) stdin)
  ∧ (high < low →
     Prompts.get_integer_value int prompt low high stdin stdout = None).
Proof.
  assert (Prompts.get_integer_value int prompt low high stdin stdout = None
          ↔ Forall (Prompts.refused int low high) stdin) as Hiff.
  { revert stdout. induction stdin as [|l stdin IH]; intros stdout.
    { split; [constructor|done]. }
    cbn [Prompts.get_integer_value]. rewrite Forall_cons.
    unfold Prompts.refused at 1.
    destruct (int l) as [value|].
    - destruct (Z.ltb_spec value low), (Z.ltb_spec high value); cbn [orb];
        rewrite ?IH; try (split; [intros ?; split; [lia|done]|tauto]).
      split; [done|]. intros [? _]. lia.
    - rewrite IH. tauto. }
  split; [done|]. intros Hempty. apply Hiff.
  apply Forall_true. intros line. unfold Prompts.refused.
  destruct (int line); [lia|done].
Qed.

(** *** [create_next_grid] on one grid as input and output *)

Section in_place.
Variables (rows cols : nat) (g : gridref) (gm : matrix).
Hypothesis Sgrid : shape rows cols gm.
Hypothesis Hnodup : NoDup g.

Lemma cell_value_in_place w row col l cur n c :
  get (live_neighbors gm) row col = Some n →
  g !! row = Some l → heap w !! l = Some cur → cur !! col = Some c →
  update_cell (live_neighbors gm) g g row col w
  = Some (tt, World (<[l := <[col := next_cell n c]> cur]> (heap w)) (console w)).
Proof.
  intros Hn Hl Hcur Hc. unfold update_cell, next_cell.
  pose proof (lookup_lt_Some _ _ _ Hc) as Hlen.
  assert (load g row col w = Some (c, w)) as Hload.
  { unfold load. by rewrite Hl, Hcur, Hc. }
  assert (∀ v, store g row col v w
               = Some (tt, World (<[l := <[col := v]> cur]> (heap w)) (console w)))
    as Hstore.
  { intros v. unfold store. rewrite Hl, Hcur. by rewrite decide_True. }
  rewrite Hn. unfold lift at 1. unfold mbind at 1, M_bind at 1.
  destruct ((n <? 2) || (3 <? n)); [by apply Hstore|].
  destruct (n =? 3).
  - unfold mbind at 1, M_bind at 1.
    rewrite (bind_some _ _ _ _ _ Hload), ret_eq.
    destruct (c =? 0); simpl; [by apply Hstore|].
    rewrite (bind_some _ _ _ _ _ Hload). by apply Hstore.
  - unfold mbind at 1, M_bind at 1. rewrite ret_eq. simpl.
    rewrite (bind_some _ _ _ _ _ Hload). by apply Hstore.
Qed.

Lemma cells_of_row_in_place row l lnrow grow :
  g !! row = Some l →
  live_neighbors gm !! row = Some lnrow → gm !! row = Some grow →
  let new := zip_with next_cell lnrow grow in
  ∀ n c0 w, (c0 + n = cols)%nat →
    heap w !! l = Some (take c0 new ++ drop c0 grow) →
    for_each (seq c0 n) (update_cell (live_neighbors gm) g g row) w
    = Some (tt, World (<[l := new]> (heap w)) (console w)).
Proof.
  intros Hl Hln Hgrow new.
  pose proof (shape_row _ _ _ _ _ Sgrid Hgrow) as Lg.
  pose proof (shape_row _ _ _ _ _ (shape_live_neighbors _ _ _ Sgrid) Hln) as Ll.
  assert (length new = cols) as Lnew.
  { unfold new. rewrite length_zip_with. lia. }
  induction n as [|n IH]; intros c0 w Hc Hcur.
  - cbn. rewrite ret_eq. rewrite take_ge, drop_ge, app_nil_r in Hcur by lia.
    rewrite insert_id by done. by rewrite world_eta.
  - destruct (lookup_lt_is_Some_2 lnrow c0) as [nn Hnn]; [lia|].
    destruct (lookup_lt_is_Some_2 grow c0) as [c Hcc]; [lia|].
    assert (new !! c0 = Some (next_cell nn c)) as Hnew.
    { unfold new. rewrite lookup_zip_with, Hnn. simpl. by rewrite Hcc. }
    cbn [seq for_each].
    erewrite bind_some; last first.
    { eapply cell_value_in_place; [|done|exact Hcur|].
      - unfold get. rewrite Hln. exact Hnn.
      - rewrite lookup_app_r by (rewrite length_take; lia).
        rewrite length_take, Nat.min_l, Nat.sub_diag by lia.
        rewrite lookup_drop, Nat.add_0_r. exact Hcc. }
    rewrite zip_with_take_drop_insert by (done || lia).
    rewrite IH; cbn [heap console].
    + by rewrite insert_insert_eq.
    + lia.
    + by rewrite lookup_insert_eq.
Qed.

Lemma rows_of_grid_in_place :
  ∀ n r0 w, (r0 + n = rows)%nat →
    (∀ i l, (r0 ≤ i)%nat → g !! i = Some l → heap w !! l = gm !! i) →
    length g = rows →
    for_each (seq r0 n)
      (λ row, for_each (range cols) (update_cell (live_neighbors gm) g g row)) w
    = Some (tt, World (write_rows (drop r0 g) (drop r0 (next_matrix gm)) (heap w))
                      (console w)).
Proof.
  pose proof (shape_live_neighbors _ _ _ Sgrid) as Sln.
  induction n as [|n IH]; intros r0 w Hr Hold Hlen.
  - cbn. rewrite ret_eq. rewrite (drop_ge g) by lia. cbn.
    by rewrite world_eta.
  - destruct (lookup_lt_is_Some_2 g r0) as [l Hl]; [lia|].
    destruct (lookup_lt_is_Some_2 gm r0) as [grow Hgrow]; [destruct Sgrid; lia|].
    destruct (lookup_lt_is_Some_2 (live_neighbors gm) r0) as [lnrow Hln];
      [destruct Sln; lia|].
    pose proof (Hold r0 l (le_n _) Hl) as Hcur. rewrite Hgrow in Hcur.
    cbn [seq for_each].
    erewrite bind_some; last first.
    { eapply (cells_of_row_in_place r0 l lnrow grow Hl Hln Hgrow cols 0%nat);
        [done|]. by rewrite take_0, drop_0. }
    rewrite IH; cbn [heap console].
    + rewrite (drop_S _ _ _ Hl).
      assert (next_matrix gm !! r0 = Some (zip_with next_cell lnrow grow)) as Hnm.
      { unfold next_matrix. rewrite lookup_zip_with, Hln. simpl. by rewrite Hgrow. }
      by rewrite (drop_S _ _ _ Hnm).
    + lia.
    + intros i l' Hi Hl'. rewrite lookup_insert_ne.
      * apply (Hold i l'); [lia|done].
      * intros ->. pose proof (proj1 (NoDup_alt _) Hnodup _ _ _ Hl Hl'). lia.
    + done.
Qed.
End in_place.

(** X13. The step also works in place.  Called with one grid as both
    [grid] and [next_grid], [create_next_grid] leaves in it the next
    generation of what it held: the neighbour counts are taken before the
    first write, and each cell is read before it is written and never
    after. *)
Theorem create_next_grid_in_place rows cols g w gm :
  (0 < rows)%nat → contents (heap w) g = Some gm → shape rows cols gm →
  NoDup g →
  ∃ w',
    create_next_grid rows cols g g w = Some (tt, w')
    ∧ contents (heap w') g = Some (next_matrix gm)
    ∧ unchanged_outside g w w'.
Proof.
  intros Hrows Hg Sg Hnd.
  pose proof (contents_length _ _ _ Hg) as Hlen.
  assert (length g = rows) as Hlen' by (destruct Sg; congruence).
  assert (create_next_grid rows cols g g w
          = Some (tt, World (write_rows g (next_matrix gm) (heap w)) (console w)))
    as Hrun.
  { unfold create_next_grid.
    rewrite (bind_some _ _ _ _ _ (asarray_value _ _ _ _ _ Hrows Hg Sg)).
    pose proof (rows_of_grid_in_place rows cols g gm Sg Hnd rows 0%nat w) as Hloop.
    rewrite !drop_0 in Hloop. apply Hloop; [done| |done].
    intros i l _ Hl. apply contents_Forall2 in Hg.
    destruct (Forall2_lookup_l _ _ _ _ _ Hg Hl) as (row & Hrow & Hh).
    by rewrite Hrow. }
  eexists. split; [exact Hrun|]. split.
  - cbn [heap]. apply write_rows_contents; [done|].
    destruct (shape_next_matrix _ _ _ Sg). congruence.
  - by eapply create_next_grid_frame.
Qed.

Lemma create_next_grid_in_place_witness :
  ∃ w',
    create_next_grid 5 5 (first_grid blinker_h) (first_grid blinker_h)
      (world_of blinker_h []) = Some (tt, w')
    ∧ contents (heap w') (first_grid blinker_h) = Some (next_matrix blinker_h)
    ∧ unchanged_outside (first_grid blinker_h) (world_of blinker_h []) w'.
Proof.
  apply (create_next_grid_in_place 5 5 _ _ blinker_h);
    [lia|reflexivity|compute_done|compute_done].
Defined.

(** *** What [print_grid] writes *)

Lemma string_app_cons x (a b : string) :
  String.app (String x a) b = String x (String.app a b).
Proof. reflexivity. Qed.

Lemma string_app_nil_l (b : string) : String.app "" b = b.
Proof. reflexivity. Qed.

Lemma string_app_nil_r (a : string) : String.app a "" = a.
Proof.
  induction a as [|x a IH]; [done|]. by rewrite string_app_cons, IH.
Qed.

Lemma string_app_assoc (a b c : string) :
  String.app (String.app a b) c = String.app a (String.app b c).
Proof.
  induction a as [|x a IH]; [done|]. by rewrite !string_app_cons, IH.
Qed.

Lemma string_app_length (a b : string) :
  String.length (String.app a b) = (String.length a + String.length b)%nat.
Proof.
  induction a as [|x a IH]; [done|].
  rewrite string_app_cons. cbn [String.length]. by rewrite IH.
Qed.

Lemma string_app_inj_length (a1 a2 b1 b2 : string) :
  String.length a1 = String.length a2 →
  String.app a1 b1 = String.app a2 b2 → a1 = a2 ∧ b1 = b2.
Proof.
  revert a2. induction a1 as [|x a1 IH]; intros [|y a2] Hlen H; try done.
  rewrite !string_app_cons in H. injection Hlen as Hlen. injection H as -> H.
  destruct (IH _ Hlen H) as [-> ->]. done.
Qed.

Lemma render_row_step x row s :
  render_row (x :: row) s
  = render_row row (if x =? 0 then String.app s ". " else String.app s "@ ").
Proof. reflexivity. Qed.

Lemma render_row_acc row s :
  render_row row s = String.app s (render_row row "").
Proof.
  revert s. induction row as [|x row IH]; intros s.
  - cbn [render_row foldl]. by rewrite string_app_nil_r.
  - rewrite !render_row_step, IH.
    rewrite (IH (if x =? 0 then String.app "" _ else _)).
    destruct (x =? 0); by rewrite string_app_nil_l, string_app_assoc.
Qed.

Lemma render_row_cons x row :
  render_row (x :: row) ""
  = String.app (if x =? 0 then ". " else "@ ") (render_row row "").
Proof.
  rewrite render_row_step, render_row_acc.
  by destruct (x =? 0).
Qed.

Lemma render_row_dead row :
  render_row (0 :: row) "" = String.app ". " (render_row row "").
Proof. by rewrite render_row_cons. Qed.

Lemma render_row_alive row :
  render_row (1 :: row) "" = String.app "@ " (render_row row "").
Proof. by rewrite render_row_cons. Qed.

Lemma render_row_length row :
  String.length (render_row row "") = (2 * length row)%nat.
Proof.
  induction row as [|x row IH]; [done|].
  rewrite render_row_cons, string_app_length, IH.
  destruct (x =? 0); cbn; lia.
Qed.

Lemma render_row_inj r1 r2 :
  Forall (λ x, x = 0 ∨ x = 1) r1 → Forall (λ x, x = 0 ∨ x = 1) r2 →
  length r1 = length r2 →
  render_row r1 "" = render_row r2 "" → r1 = r2.
Proof.
  revert r2. induction r1 as [|x r1 IH]; intros [|y r2] B1 B2 Hlen H; try done.
  apply Forall_cons in B1 as [Hx B1]. apply Forall_cons in B2 as [Hy B2].
  injection Hlen as Hlen.
  destruct Hx as [-> | ->], Hy as [-> | ->];
    rewrite ?render_row_dead, ?render_row_alive in H;
    rewrite !string_app_cons, !string_app_nil_l in H; try done;
    injection H as H; f_equal; by apply IH.
Qed.

(** The text after the heading: one line per row. *)
Lemma render_body_acc g s :
  foldl (λ s row, String.app (render_row row s) newline) s g
  = String.app s (foldl (λ s row, String.app (render_row row s) newline) "" g).
Proof.
  revert s. induction g as [|row g IH]; intros s.
  - cbn [foldl]. by rewrite string_app_nil_r.
  - cbn [foldl]. rewrite IH.
    rewrite (IH (String.app (render_row row "") newline)).
    rewrite (render_row_acc row s). by rewrite !string_app_assoc.
Qed.

Lemma render_body_inj rows cols g1 g2 :
  shape rows cols g1 → shape rows cols g2 → binary g1 → binary g2 →
  foldl (λ s row, String.app (render_row row s) newline) "" g1
  = foldl (λ s row, String.app (render_row row s) newline) "" g2 →
  g1 = g2.
Proof.
  revert rows g2. induction g1 as [|r1 g1 IH]; intros rows [|r2 g2] S1 S2 B1 B2 H.
  - done.
  - destruct S1 as [<- _]. by destruct S2.
  - destruct S2 as [<- _]. by destruct S1.
  - destruct S1 as [L1 F1]. destruct S2 as [L2 F2].
    apply Forall_cons in F1 as [Hr1 F1]. apply Forall_cons in F2 as [Hr2 F2].
    apply Forall_cons in B1 as [Br1 B1]. apply Forall_cons in B2 as [Br2 B2].
    cbn [foldl] in H. rewrite render_body_acc in H.
    rewrite (render_body_acc g2) in H. rewrite !string_app_assoc in H.
    apply string_app_inj_length in H as [Hrow H];
      [|rewrite !render_row_length; congruence].
    apply String.app_inj in H.
    f_equal.
    + apply render_row_inj; [done|done|congruence|done].
    + apply (IH (length g1)); try done.
      cbn in L1, L2. split; [lia|done].
Qed.

(** X14. Two renderings of [rows] x [cols] grids of 0/1 cells under the
    same generation number are the same text only when the grids are the
    same: what [print_grid] writes shows the whole grid. *)
Theorem print_grid_shows_grid rows cols generation g1 g2 w1 w2 m1 m2 :
  contents (heap w1) g1 = Some m1 → shape rows cols m1 → binary m1 →
  contents (heap w2) g2 = Some m2 → shape rows cols m2 → binary m2 →
  ∃ w1' w2' s1 s2,
    print_grid rows cols g1 generation w1 = Some (tt, w1')
    ∧ print_grid rows cols g2 generation w2 = Some (tt, w2')
    ∧ last (console w1') = Some (Output s1)
    ∧ last (console w2') = Some (Output s2)
    ∧ (s1 = s2 → m1 = m2).
Proof.
  intros H1 S1 B1 H2 S2 B2.
  exists (World (heap w1)
            (console w1 ++ [ClearConsole; Output (render m1 generation)])),
         (World (heap w2)
            (console w2 ++ [ClearConsole; Output (render m2 generation)])),
         (render m1 generation), (render m2 generation).
  split; [by apply print_grid_value|]. split; [by apply print_grid_value|].
  cbn [console]. split; [by rewrite last_app|]. split; [by rewrite last_app|].
  unfold render. rewrite render_body_acc, (render_body_acc m2).
  intros H. apply String.app_inj in H. by eapply render_body_inj.
Qed.

Lemma print_grid_shows_grid_witness :
  ∃ w1' w2' s1 s2,
    print_grid 5 5 (first_grid blinker_h) 3 (world_of blinker_h blinker_v)
    = Some (tt, w1')
    ∧ print_grid 5 5 (second_grid blinker_h blinker_v) 3
        (world_of blinker_h blinker_v) = Some (tt, w2')
    ∧ last (console w1') = Some (Output s1)
    ∧ last (console w2') = Some (Output s2)
    ∧ (s1 = s2 → blinker_h = blinker_v).
Proof.
  apply (print_grid_shows_grid 5 5 3 _ _ _ _ blinker_h blinker_v);
    [reflexivity|compute_done|compute_done
    |reflexivity|compute_done|compute_done].
Defined.

(** *** The early return of [grid_changing] *)

Lemma for_return_found {A R} (before after : list A) x
    (body : A → M (option R)) w v :
  (∀ y, y ∈ before → body y w = Some (None, w)) →
  body x w = Some (Some v, w) →
  for_return (before ++ x :: after) body w = Some (Some v, w).
Proof.
  intros Hbefore Hx. induction before as [|y before IH].
  - cbn [app for_return]. by rewrite (bind_some _ _ _ _ _ Hx).
  - cbn [app for_return].
    rewrite (bind_some _ _ _ _ _ (Hbefore y ltac:(left))).
    apply IH. intros z Hz. apply Hbefore. by right.
Qed.

Lemma for_return_all_None {A R} (l : list A) (body : A → M (option R)) w :
  (∀ y, y ∈ l → body y w = Some (None, w)) →
  for_return l body w = Some (None, w).
Proof.
  intros Hall. induction l as [|y l IH]; [done|].
  cbn [for_return]. rewrite (bind_some _ _ _ _ _ (Hall y ltac:(left))).
  apply IH. intros z Hz. apply Hall. by right.
Qed.

Lemma seq_split_at n i :
  (i < n)%nat → seq 0 n = seq 0 i ++ i :: seq (S i) (n - S i).
Proof.
  intros Hi. replace n with (i + S (n - S i))%nat at 1 by lia.
  by rewrite seq_app.
Qed.

(** X15. [grid_changing] stops at the first differing cell in reading
    order: when all cells before [(r, c)] are present in both grids and
    agree, and the two cells at [(r, c)] differ, it returns [True] without
    looking further, so cells that are missing after that point go
    unnoticed. *)
Theorem grid_changing_stops_at_first_difference
    rows cols grid next_grid w gm nm r c x y :
  contents (heap w) grid = Some gm → contents (heap w) next_grid = Some nm →
  (r < rows)%nat → (c < cols)%nat →
  (∀ r' c', (r' < r ∧ c' < cols)%nat ∨ (r' = r ∧ c' < c)%nat →
     ∃ v, get gm r' c' = Some v ∧ get nm r' c' = Some v) →
  get gm r c = Some x → get nm r c = Some y → x ≠ y →
  grid_changing rows cols grid next_grid w = Some (true, w).
Proof.
  intros Hg Hn Hr Hc Hsame Hx Hy Hne.
  assert (∀ r' c', (r' < r ∧ c' < cols)%nat ∨ (r' = r ∧ c' < c)%nat →
            compare_cell grid next_grid r' c' w = Some (None, w)) as Hcell.
  { intros r' c' Hpos. destruct (Hsame r' c' Hpos) as (v & Hv1 & Hv2).
    unfold compare_cell.
    rewrite (bind_some _ _ _ _ _ (load_get _ _ _ _ _ _ Hg Hv1)).
    rewrite (bind_some _ _ _ _ _ (load_get _ _ _ _ _ _ Hn Hv2)).
    by rewrite Z.eqb_refl. }
  assert (compare_cell grid next_grid r c w = Some (Some true, w)) as Hdiff.
  { unfold compare_cell.
    rewrite (bind_some _ _ _ _ _ (load_get _ _ _ _ _ _ Hg Hx)).
    rewrite (bind_some _ _ _ _ _ (load_get _ _ _ _ _ _ Hn Hy)).
    by rewrite (proj2 (Z.eqb_neq x y) Hne). }
  unfold grid_changing, range.
  rewrite (bind_some _ _ _ (Some true) w); [done|].
  rewrite (seq_split_at rows r Hr). apply for_return_found.
  - intros r' Hr'. apply list_elem_of_In, in_seq in Hr'.
    apply for_return_all_None. intros c' Hc'.
    apply list_elem_of_In, in_seq in Hc'. apply Hcell. lia.
  - rewrite (seq_split_at cols c Hc). apply for_return_found; [|done].
    intros c' Hc'. apply list_elem_of_In, in_seq in Hc'. apply Hcell. lia.
Qed.

Lemma grid_changing_stops_at_first_difference_witness :
  grid_changing 10 12 (first_grid block) (second_grid block lone_cell)
    (world_of block lone_cell) = Some (true, world_of block lone_cell).
Proof.
  apply (grid_changing_stops_at_first_difference 10 12 _ _ _
           block lone_cell 0 7 0 1);
    [reflexivity|reflexivity|lia|lia| |reflexivity|reflexivity|lia].
  intros r' c' [[Hr' _]|[-> Hc']]; [lia|].
  do 7 (destruct c' as [|c']; [by eexists|]). lia.
Defined.

(** *** The step has no preferred direction *)






Section mirrors.
Variables (rows cols : nat) (g : matrix).
Hypothesis Sg : shape rows cols g.






End mirrors.


